(** * editorfirst: type-level utilities, embedded as functions on type descriptors

    Every exported symbol of the library is a TypeScript type alias, evaluated
    by the type checker.  The embedding represents the types the checker
    manipulates by the inductive [ty] and each alias by a function on [ty]
    that follows the alias' right-hand side, with the checker's primitive
    operations ([keyof], indexed access, assignability, mapped types,
    conditional types) as separate definitions.

    Modelled fragment (strict mode): any / unknown / never, the primitive
    types, unit literals, object types with named properties (each optional
    and/or readonly), fixed-arity tuples (elements possibly optional),
    arrays, function types with required positional parameters, unions and
    intersections.  Index signatures, rest elements, overloads, generics
    and [this] parameters are not represented. *)

From Stdlib Require Import String Ascii List Bool ZArith Lia DecimalString.
Import ListNotations.
Local Open Scope string_scope.

(** ** Type descriptors *)

Inductive prim : Type :=
| PString | PNumber | PBigint | PSymbol | PNull | PUndefined | PVoid
| PObject.  (* the [object] keyword: every non-primitive *)

Inductive lit : Type :=
| LStr (s : string)
| LNum (n : Z)
| LBool (b : bool).

(** A property is [(name, (type, optional, readonly))]; a tuple element is
    [(type, optional)].  The type kept for an optional property or element
    is the type read from it, which includes [undefined]
    ([{ a?: string }] is [("a", (string | undefined, true, false))]). *)
#[local] Unset Elimination Schemes.
Inductive ty : Type :=
| TAny
| TUnknown
| TNever
| TPrim (p : prim)
| TLit (l : lit)
| TRecord (fs : list (string * (ty * bool * bool)))
| TTuple (ro : bool) (es : list (ty * bool))
| TArray (ro : bool) (e : ty)
| TFn (ps : list ty) (r : ty)
| TUnion (ms : list ty)
| TInter (ms : list ty).
#[local] Set Elimination Schemes.

Definition field : Type := (ty * bool * bool)%type.
Definition prop : Type := (string * field)%type.

Definition fty (f : field) : ty := fst (fst f).
Definition fopt (f : field) : bool := snd (fst f).
Definition fro (f : field) : bool := snd f.

Definition TString : ty := TPrim PString.
Definition TNumber : ty := TPrim PNumber.
Definition TUndefined : ty := TPrim PUndefined.
Definition TNull : ty := TPrim PNull.
Definition TStr (s : string) : ty := TLit (LStr s).
Definition TTrue : ty := TLit (LBool true).
Definition TFalse : ty := TLit (LBool false).
(** [boolean] is the union [true | false]. *)
Definition TBoolean : ty := TUnion [TTrue; TFalse].
(** [Record<never, never>], the object type without properties. *)
Definition TEmpty : ty := TRecord [].

(** ** Structural identity of descriptors *)

Definition prim_eqb (p q : prim) : bool :=
  match p, q with
  | PString, PString | PNumber, PNumber | PBigint, PBigint
  | PSymbol, PSymbol | PNull, PNull | PUndefined, PUndefined
  | PVoid, PVoid | PObject, PObject => true
  | _, _ => false
  end.

Definition lit_eqb (a b : lit) : bool :=
  match a, b with
  | LStr s, LStr t => String.eqb s t
  | LNum n, LNum m => Z.eqb n m
  | LBool x, LBool y => Bool.eqb x y
  | _, _ => false
  end.

Fixpoint ty_eqb (a b : ty) {struct a} : bool :=
  match a, b with
  | TAny, TAny | TUnknown, TUnknown | TNever, TNever => true
  | TPrim p, TPrim q => prim_eqb p q
  | TLit l, TLit m => lit_eqb l m
  | TRecord fs, TRecord gs =>
      (fix go (fs gs : list (string * (ty * bool * bool))) : bool :=
         match fs, gs with
         | [], [] => true
         | (k, (t, o, r)) :: fs', (k', (t', o', r')) :: gs' =>
             String.eqb k k' && ty_eqb t t' && Bool.eqb o o' && Bool.eqb r r'
             && go fs' gs'
         | _, _ => false
         end) fs gs
  | TTuple ro es, TTuple ro' es' =>
      Bool.eqb ro ro' &&
      (fix go (es es' : list (ty * bool)) : bool :=
         match es, es' with
         | [], [] => true
         | (t, o) :: l, (t', o') :: l' => ty_eqb t t' && Bool.eqb o o' && go l l'
         | _, _ => false
         end) es es'
  | TArray ro e, TArray ro' e' => Bool.eqb ro ro' && ty_eqb e e'
  | TFn ps r, TFn ps' r' =>
      (fix go (l l' : list ty) : bool :=
         match l, l' with
         | [], [] => true
         | t :: l, t' :: l' => ty_eqb t t' && go l l'
         | _, _ => false
         end) ps ps' && ty_eqb r r'
  | TUnion ms, TUnion ms' | TInter ms, TInter ms' =>
      (fix go (l l' : list ty) : bool :=
         match l, l' with
         | [], [] => true
         | t :: l, t' :: l' => ty_eqb t t' && go l l'
         | _, _ => false
         end) ms ms'
  | _, _ => false
  end.

(** ** Small recognisers *)

Definition is_any (t : ty) : bool := match t with TAny => true | _ => false end.
Definition is_unknown (t : ty) : bool := match t with TUnknown => true | _ => false end.
Definition is_never (t : ty) : bool := match t with TNever => true | _ => false end.
Definition is_top (t : ty) : bool := is_any t || is_unknown t.
Definition is_undefined (t : ty) : bool :=
  match t with TPrim PUndefined => true | _ => false end.
Definition is_void (t : ty) : bool :=
  match t with TPrim PVoid => true | _ => false end.
Definition is_nullish (t : ty) : bool :=
  match t with TPrim PNull | TPrim PUndefined | TPrim PVoid => true | _ => false end.
Definition is_null_or_undefined (t : ty) : bool :=
  match t with TPrim PNull | TPrim PUndefined => true | _ => false end.
(** Types with object structure: what the [object] keyword accepts. *)
Definition is_objectlike (t : ty) : bool :=
  match t with
  | TRecord _ | TTuple _ _ | TArray _ _ | TFn _ _ | TPrim PObject => true
  | _ => false
  end.

(** The primitive a literal widens to ([boolean] is a union, not a primitive). *)
Definition prim_of_lit (l : lit) : option prim :=
  match l with
  | LStr _ => Some PString
  | LNum _ => Some PNumber
  | LBool _ => None
  end.

Definition mem_ty (t : ty) (l : list ty) : bool := existsb (ty_eqb t) l.

(** Duplicates are dropped, the first occurrence is kept. *)
Fixpoint dedup_from (seen l : list ty) : list ty :=
  match l with
  | [] => []
  | t :: l' =>
      if mem_ty t seen then dedup_from seen l' else t :: dedup_from (t :: seen) l'
  end.

Definition dedup (l : list ty) : list ty := dedup_from [] l.

(** ** Union types

    The checker keeps unions flat, without [never], without duplicates and
    without literals subsumed by their primitive; a union with [any]
    ([unknown]) is [any] ([unknown]); one member is the member itself and no
    member is [never]. *)

Definition union_members (t : ty) : list ty :=
  match t with
  | TUnion ms => ms
  | TNever => []
  | _ => [t]
  end.

Definition subsumed_literal (l : list ty) (t : ty) : bool :=
  match t with
  | TLit v =>
      match prim_of_lit v with
      | Some p => mem_ty (TPrim p) l
      | None => false
      end
  | _ => false
  end.

Definition pack_union (l : list ty) : ty :=
  match l with
  | [] => TNever
  | [t] => t
  | _ => TUnion l
  end.

Definition union_of (l : list ty) : ty :=
  let flat := flat_map union_members l in
  if existsb is_any flat then TAny
  else if existsb is_unknown flat then TUnknown
  else
    let d := dedup flat in
    pack_union (filter (fun t => negb (subsumed_literal d t)) d).

(** ** Intersection types

    [never] absorbs, then [any]; [unknown] is neutral; intersections
    distribute over unions; an intersection with an empty value set
    (two different primitives or literals, [null] or [undefined] with an
    object type, two object types whose common property is a literal in one and
    disjoint from it in the other) is [never]; a literal absorbs its
    primitive.  An object type without properties is kept as a member (the
    checker drops one written as the literal [{}], and keeps one that comes
    from a mapped type). *)

Definition inter_members (t : ty) : list ty :=
  match t with
  | TInter ms => ms
  | TUnknown => []
  | _ => [t]
  end.

Definition structured (t : ty) : bool :=
  match t with
  | TRecord _ | TTuple _ _ | TArray _ _ | TFn _ _ => true
  | _ => false
  end.

(** No value of literal type [l] belongs to [t]. *)
Fixpoint lit_disjoint (l : lit) (t : ty) : bool :=
  match t with
  | TLit m => negb (lit_eqb l m)
  | TPrim p =>
      match prim_of_lit l with
      | Some q => negb (prim_eqb p q)
      | None => true
      end
  | TNever => true
  | TUnion ms => forallb (lit_disjoint l) ms
  | _ => false
  end.

Definition props_conflict (fs gs : list prop) : bool :=
  existsb (fun f : prop =>
    existsb (fun g : prop =>
      String.eqb (fst f) (fst g) &&
      match fty (snd f), fty (snd g) with
      | TLit l, t | t, TLit l => lit_disjoint l t
      | _, _ => false
      end) gs) fs.

Definition disjoint_pair (a b : ty) : bool :=
  match a, b with
  | TLit l, TLit m => negb (lit_eqb l m)
  | TLit l, TPrim p | TPrim p, TLit l => lit_disjoint l (TPrim p)
  | TPrim PUndefined, TPrim PVoid | TPrim PVoid, TPrim PUndefined => false
  | TPrim p, TPrim q => negb (prim_eqb p q)
  | TRecord fs, TRecord gs => props_conflict fs gs
  | TPrim p, t | t, TPrim p =>
      structured t && is_null_or_undefined (TPrim p)
  | _, _ => false
  end.

Fixpoint any_disjoint (l : list ty) : bool :=
  match l with
  | [] => false
  | t :: l' => existsb (disjoint_pair t) l' || any_disjoint l'
  end.

Definition absorbed_prim (l : list ty) (t : ty) : bool :=
  match t with
  | TPrim p =>
      existsb (fun u => match u with
                        | TLit v => match prim_of_lit v with
                                    | Some q => prim_eqb p q
                                    | None => false
                                    end
                        | _ => false
                        end) l
  | _ => false
  end.

Definition pack_inter (l : list ty) : ty :=
  match l with
  | [] => TUnknown
  | [t] => t
  | _ => TInter l
  end.

(** Intersection of two types neither of which is a union. *)
Definition intersect_atoms (a b : ty) : ty :=
  if is_never a || is_never b then TNever
  else if is_any a || is_any b then TAny
  else
    let d := dedup (inter_members a ++ inter_members b) in
    if any_disjoint d then TNever
    else pack_inter (filter (fun t => negb (absorbed_prim d t)) d).

Fixpoint intersect2 (a : ty) : ty -> ty :=
  fix inner (b : ty) : ty :=
    match a with
    | TUnion ms => union_of (map (fun m => intersect2 m b) ms)
    | _ =>
        match b with
        | TUnion ms => union_of (map inner ms)
        | _ => intersect_atoms a b
        end
    end.

Definition intersect_all (l : list ty) : ty := fold_left intersect2 l TUnknown.

(** ** Properties of a type

    The members of the wrapper interfaces ([String], [Number], ...) and of
    [Array<T>] / [ReadonlyArray<T>] are declared by the standard library
    the checker is run with, not by this repository: they are parameters of
    the development. *)

Inductive wrapper : Type := WString | WNumber | WBigint | WSymbol | WBoolean.

Definition wrapper_of_prim (p : prim) : option wrapper :=
  match p with
  | PString => Some WString
  | PNumber => Some WNumber
  | PBigint => Some WBigint
  | PSymbol => Some WSymbol
  | _ => None
  end.

Definition wrapper_of_lit (l : lit) : wrapper :=
  match l with
  | LStr _ => WString
  | LNum _ => WNumber
  | LBool _ => WBoolean
  end.

Fixpoint find_prop (k : string) (fs : list prop) : option field :=
  match fs with
  | [] => None
  | (k', f) :: fs' => if String.eqb k k' then Some f else find_prop k fs'
  end.

Definition prop_names (fs : list prop) : list string := map fst fs.

Definition index_name (i : nat) : string :=
  NilZero.string_of_uint (Nat.to_uint i).

Fixpoint index_props (ro : bool) (i : nat) (es : list (ty * bool)) : list prop :=
  match es with
  | [] => []
  | (t, o) :: es' => (index_name i, (t, o, ro)) :: index_props ro (S i) es'
  end.

(** The literal lengths a tuple can have: all required elements, then any
    number of the optional ones. *)
Definition tuple_lengths (es : list (ty * bool)) : list ty :=
  let required := length (filter (fun e => negb (snd e)) es) in
  map (fun i => TLit (LNum (Z.of_nat (required + i))))
      (seq 0 (S (length es - required))).

Section Checker.

Variable wrapper_members : wrapper -> list prop.
Variable array_members : bool -> ty -> list prop.

Definition array_props (ro : bool) (e : ty) : list prop :=
  ("length", (TNumber, false, false)) :: array_members ro e.

Definition tuple_props (ro : bool) (es : list (ty * bool)) : list prop :=
  index_props ro 0 es
  ++ ("length", (union_of (tuple_lengths es), false, true))
  :: array_members ro (union_of (map fst es)).

Definition all_some {A : Type} (l : list (option A)) : option (list A) :=
  fold_right (fun o acc =>
                match o, acc with
                | Some a, Some r => Some (a :: r)
                | _, _ => None
                end) (Some []) l.

Definition somes {A : Type} (l : list (option A)) : list A :=
  flat_map (fun o => match o with Some a => [a] | None => [] end) l.

(** A property of a union exists when every member has it; of an
    intersection, when some member has it. *)
Definition union_prop (fs : list field) : field :=
  (union_of (map fty fs), existsb fopt fs, existsb fro fs).

Definition inter_prop (fs : list field) : field :=
  (intersect_all (map fty fs), forallb fopt fs, forallb fro fs).

Fixpoint lookup_prop (t : ty) (k : string) : option field :=
  match t with
  | TRecord fs => find_prop k fs
  | TPrim p =>
      match wrapper_of_prim p with
      | Some w => find_prop k (wrapper_members w)
      | None => None
      end
  | TLit l => find_prop k (wrapper_members (wrapper_of_lit l))
  | TArray ro e => find_prop k (array_props ro e)
  | TTuple ro es => find_prop k (tuple_props ro es)
  | TUnion ms =>
      match ms, all_some (map (fun m => lookup_prop m k) ms) with
      | _ :: _, Some fs => Some (union_prop fs)
      | _, _ => None
      end
  | TInter ms =>
      match somes (map (fun m => lookup_prop m k) ms) with
      | [] => None
      | fs => Some (inter_prop fs)
      end
  | TFn _ _ | TAny | TUnknown | TNever => None
  end.

(** The type read with a [number] index. *)
Fixpoint number_index (t : ty) : option ty :=
  match t with
  | TArray _ e => Some e
  | TTuple _ es => Some (union_of (map fst es))
  | TPrim PString | TLit (LStr _) => Some TString
  | TUnion ms =>
      match ms, all_some (map number_index ms) with
      | _ :: _, Some ts => Some (union_of ts)
      | _, _ => None
      end
  | TInter ms =>
      match somes (map number_index ms) with
      | [] => None
      | ts => Some (intersect_all ts)
      end
  | _ => None
  end.

Definition key_names (fs : list prop) : list ty := map (fun f : prop => TStr (fst f)) fs.

(** [keyof T]. *)
Fixpoint keyof (t : ty) : ty :=
  match t with
  | TAny | TNever => union_of [TString; TNumber; TPrim PSymbol]
  | TUnknown => TNever
  | TRecord fs => union_of (key_names fs)
  | TPrim PString | TLit (LStr _) =>
      union_of (TNumber :: key_names (wrapper_members WString))
  | TPrim p =>
      match wrapper_of_prim p with
      | Some w => union_of (key_names (wrapper_members w))
      | None => TNever
      end
  | TLit l => union_of (key_names (wrapper_members (wrapper_of_lit l)))
  | TArray ro e => union_of (TNumber :: key_names (array_props ro e))
  | TTuple ro es => union_of (TNumber :: key_names (tuple_props ro es))
  | TFn _ _ => TNever
  | TUnion ms => intersect_all (map keyof ms)
  | TInter ms => union_of (map keyof ms)
  end.

(** [T[K]] for one key type [K]; an invalid access is an error, for which
    the checker continues with its error type, which behaves as [any]. *)
Definition index_one (t k : ty) : ty :=
  match t with
  | TAny => TAny
  | TNever => TNever
  | _ =>
      match k with
      | TLit (LStr name) =>
          match lookup_prop t name with
          | Some f => fty f
          | None => TAny
          end
      | TLit (LNum n) =>
          match lookup_prop t (index_name (Z.to_nat n)), number_index t with
          | Some f, _ => fty f
          | None, Some e => e
          | None, None => TAny
          end
      | TPrim PNumber =>
          match number_index t with
          | Some e => e
          | None => TAny
          end
      | _ => TAny
      end
  end.

(** [T[K]]: the union of the accesses with each member of [K]. *)
Definition index_access (t k : ty) : ty :=
  union_of (map (index_one t) (union_members k)).

(** ** Assignability

    [related n s t]: [s] is assignable to [t], the relation behind
    [extends] in a conditional type.  The checker gives up on a comparison
    nested [relation_depth] deep and answers no; [n] is the depth left.
    Function parameters are compared contravariantly; [readonly] on a
    property does not matter, on a tuple or array it does.  The check of
    weak types (a target whose properties are all optional refuses a source
    that shares none of them) is not part of the fragment. *)

Definition relation_depth : nat := 100.


(** One level of the comparison; [rel] compares the components. *)
Definition props_related (rel : ty -> ty -> bool) (s : ty) (gs : list prop) : bool :=
  forallb (fun g : prop =>
             match lookup_prop s (fst g) with
             | Some f => (fopt (snd g) || negb (fopt f))
                         && rel (fty f) (fty (snd g))
             | None => fopt (snd g)
             end) gs.

Fixpoint elems_related (rel : ty -> ty -> bool) (es es' : list (ty * bool)) : bool :=
  match es, es' with
  | [], _ => forallb snd es'
  | _ :: _, [] => false
  | (a, o) :: l, (b, o') :: l' =>
      (o' || negb o) && rel a b && elems_related rel l l'
  end.

Fixpoint params_related (rel : ty -> ty -> bool) (ps ps' : list ty) : bool :=
  match ps, ps' with
  | [], _ => true
  | _ :: _, [] => false
  | a :: l, b :: l' => rel b a && params_related rel l l'
  end.

(** Source and target are neither [any], [unknown], [never] nor unions,
    and the target is not an intersection. *)
Definition related_structure (rel : ty -> ty -> bool) (s t : ty) : bool :=
  match s, t with
  | TInter ms, TRecord gs =>
      existsb (fun m => rel m t) ms || props_related rel s gs
  | TInter ms, _ => existsb (fun m => rel m t) ms
  | TLit l, TLit m => lit_eqb l m
  | TLit l, TPrim p =>
      match prim_of_lit l with
      | Some q => prim_eqb p q
      | None => false
      end
  | TPrim PUndefined, TPrim PVoid => true
  | TPrim p, TPrim q => prim_eqb p q
  | _, TPrim PObject => structured s
  | _, TRecord gs => negb (is_nullish s) && props_related rel s gs
  | TTuple ro es, TTuple ro' es' => (ro' || negb ro) && elems_related rel es es'
  | TTuple ro es, TArray ro' e =>
      (ro' || negb ro) && forallb (fun a => rel (fst a) e) es
  | TArray ro e, TArray ro' e' => (ro' || negb ro) && rel e e'
  | TFn ps r, TFn ps' r' =>
      params_related rel ps ps' && (is_void r' || rel r r')
  | _, _ => false
  end.

Definition related_step (rel : ty -> ty -> bool) (s t : ty) : bool :=
  if is_top t then true
  else
    match s with
    | TNever => true
    | TAny => negb (is_never t)
    | TUnknown => false
    | TUnion ms => forallb (fun m => rel m t) ms
    | _ =>
        match t with
        | TUnion ms => existsb (fun m => rel s m) ms
        | TInter ms => forallb (fun m => rel s m) ms
        | TNever => false
        | _ => related_structure rel s t
        end
    end.

Fixpoint related (n : nat) (s t : ty) {struct n} : bool :=
  match n with
  | 0 => false
  | S n' => related_step (related n') s t
  end.

Definition assignable (s t : ty) : bool := related relation_depth s t.

(** ** Conditional types

    [C extends E ? X : Y] once [C] and [E] are known: [X] when [E] is [any]
    or [unknown]; both branches when [C] is [any]; otherwise by
    assignability.  A conditional type whose checked type is a naked type
    parameter distributes over the members of a union, and is [never] on
    [never]. *)

Definition conditional (c e x y : ty) : ty :=
  if is_top e then x
  else if is_any c then union_of [x; y]
  else if assignable c e then x else y.

Definition distribute (f : ty -> ty) (t : ty) : ty :=
  match t with
  | TUnion ms => union_of (map f ms)
  | TNever => TNever
  | _ => f t
  end.

(** The one-element tuple [[T]] that switches distribution off. *)
Definition boxed (t : ty) : ty := TTuple false [(t, false)].

(** ** Mapped types *)

Inductive modifier : Type := Keep | Add | Remove.

Definition apply_mod (m : modifier) (b : bool) : bool :=
  match m with
  | Keep => b
  | Add => true
  | Remove => false
  end.

Definition with_undefined (t : ty) : ty := union_of [t; TUndefined].

(** What [-?] leaves of the type of an optional property: [undefined] and
    [void] are taken out. *)
Definition strip_undefined (t : ty) : ty :=
  union_of (filter (fun m => negb (is_undefined m || is_void m)) (union_members t)).

(** The property a homomorphic mapped type makes of property [f] under key
    [k]: [template] receives the key and [T[K]]; an optional result reads
    [undefined] too, and [-?] on an optional property strips it. *)
Definition mapped_field (mopt mro : modifier) (template : ty -> ty -> ty)
    (k : ty) (f : field) : field :=
  let v := template k (fty f) in
  let o := apply_mod mopt (fopt f) in
  (if o then with_undefined v
   else if fopt f then strip_undefined v else v,
   o, apply_mod mro (fro f)).

Definition mapped_props (mopt mro : modifier) (template : ty -> ty -> ty)
    (fs : list prop) : list prop :=
  map (fun f : prop => (fst f, mapped_field mopt mro template (TStr (fst f)) (snd f))) fs.

Definition mapped_elems (mopt : modifier) (template : ty -> ty -> ty)
    (es : list (ty * bool)) : list (ty * bool) :=
  map (fun f : prop => fst (snd f))
      (mapped_props mopt Keep template (index_props false 0 es)).

(** The element type of a mapped array: the template at key [number],
    the element counting as optional. *)
Definition mapped_array_elem (mopt : modifier) (template : ty -> ty -> ty)
    (e : ty) : ty :=
  let v := template TNumber e in
  match mopt with
  | Add => with_undefined v
  | Remove => strip_undefined v
  | Keep => v
  end.

Definition string_keys (k : ty) : list string :=
  flat_map (fun m => match m with TLit (LStr s) => [s] | _ => [] end)
           (union_members k).

(** The named properties of a type, through its string-literal keys. *)
Definition props_of (t : ty) : list prop :=
  flat_map (fun k => match lookup_prop t k with
                     | Some f => [(k, f)]
                     | None => []
                     end) (string_keys (keyof t)).

(** [{ [K in keyof T]: template }] with modifiers [mopt], [mro], for one
    member of [T].  Tuples and arrays map to tuples and arrays, a primitive
    and the [object] keyword to themselves, a function type (an object type
    without properties) to the empty object type.  Over [any] the checker makes an index signature,
    which the fragment does not represent: the model answers [any]. *)
Definition homomorphic_one (mopt mro : modifier) (template : ty -> ty -> ty)
    (t : ty) : ty :=
  match t with
  | TRecord fs => TRecord (mapped_props mopt mro template fs)
  | TTuple ro es => TTuple (apply_mod mro ro) (mapped_elems mopt template es)
  | TArray ro e => TArray (apply_mod mro ro) (mapped_array_elem mopt template e)
  | TFn _ _ | TUnknown => TEmpty
  | TInter _ => TRecord (mapped_props mopt mro template (props_of t))
  | TAny => TAny
  | TNever | TPrim _ | TLit _ | TUnion _ => t
  end.

(** A homomorphic mapped type distributes over a union. *)
Definition homomorphic (mopt mro : modifier) (template : ty -> ty -> ty)
    (t : ty) : ty :=
  distribute (homomorphic_one mopt mro template) t.

(** [{ [P in K]: template }] for keys that are not [keyof] of a type
    variable: one required, writable property per string-literal key. *)
Definition mapped_keys (k : ty) (template : string -> ty) : ty :=
  TRecord (map (fun s => (s, (template s, false, false))) (string_keys k)).

(** ** Built-in aliases used by the library *)

Definition TObject : ty := TPrim PObject.

(** [Exclude<T, U> = T extends U ? never : T]. *)
Definition Exclude (t u : ty) : ty :=
  distribute (fun m => conditional m u TNever m) t.

(** [Pick<T, K> = { [P in K]: T[P] }], [K extends keyof T]: each picked
    property keeps its modifiers. *)
Definition Pick (t k : ty) : ty :=
  TRecord (flat_map (fun s => match lookup_prop t s with
                              | Some f => [(s, f)]
                              | None => []
                              end) (string_keys k)).

(** [Omit<T, K> = Pick<T, Exclude<keyof T, K>>]. *)
Definition Omit (t k : ty) : ty := Pick t (Exclude (keyof t) k).

Fixpoint ty_depth (t : ty) : nat :=
  match t with
  | TRecord fs => S (list_max (map (fun f : prop => ty_depth (fty (snd f))) fs))
  | TTuple _ es => S (list_max (map (fun e : ty * bool => ty_depth (fst e)) es))
  | TArray _ e => S (ty_depth e)
  | TFn ps r => S (Nat.max (list_max (map ty_depth ps)) (ty_depth r))
  | TUnion ms | TInter ms => S (list_max (map ty_depth ms))
  | _ => 0
  end.

(** ** function/index.ts *)

(** [Args extends [infer First, ...infer Rest]
      ? (arg: First) => Curry<(...args: Rest) => Return> : () => Return]. *)
Fixpoint Curry_fn (Args : list ty) (Return : ty) : ty :=
  match Args with
  | First :: Rest => TFn [First] (Curry_fn Rest Return)
  | [] => TFn [] Return
  end.

(** [Curry<T> = T extends (...args: infer Args) => infer Return ? ... : never].
    From [any] nothing is inferred: [Args] is [unknown[]], [Return] is
    [unknown], and the other branch adds [never]. *)
Definition Curry (T : ty) : ty :=
  distribute (fun T =>
    match T with
    | TFn Args Return => Curry_fn Args Return
    | TAny => TFn [] TUnknown
    | _ => TNever
    end) T.

(** ** The tuple aliases *)

(** [TuplePush<T, V> = [...T, V]].  A spread makes a writable tuple, and
    optional elements before the required [V] become required.  Spreading
    an array (or [any], which spreads as [any[]]) gives a tuple with a rest
    element, widened here to an array. *)
Definition TuplePush (T V : ty) : ty :=
  distribute (fun T =>
    match T with
    | TTuple _ es => TTuple false (map (fun e => (fst e, false)) es ++ [(V, false)])
    | TArray _ e => TArray false (union_of [e; V])
    | _ => TArray false TAny
    end) T.

(** [TuplePop<T> = T extends readonly [...infer R, any] ? R : []].  The
    inferred slice [R] is a writable tuple. *)
Definition TuplePop (T : ty) : ty :=
  distribute (fun T =>
    match T with
    | TTuple _ es =>
        match rev es with
        | (_, false) :: R => TTuple false (rev R)
        | _ => TTuple false []
        end
    | TAny => union_of [TArray false TUnknown; TTuple false []]
    | _ => TTuple false []
    end) T.

(** [MutableTuple<T> = [...T]]. *)
Definition MutableTuple (T : ty) : ty :=
  distribute (fun T =>
    match T with
    | TTuple _ es => TTuple false es
    | TArray _ e => TArray false e
    | _ => TArray false TAny
    end) T.

(** ** guard/index.ts *)

(** [IsNever<T> = [T] extends [never] ? true : false]. *)
Definition IsNever (T : ty) : ty :=
  conditional (boxed T) (boxed TNever) TTrue TFalse.

(** [IsAny<T> = 0 extends 1 & T ? true : false]. *)
Definition IsAny (T : ty) : ty :=
  conditional (TLit (LNum 0)) (intersect2 (TLit (LNum 1)) T) TTrue TFalse.

(** [IsUnknown<T> = [T] extends [unknown]
      ? (IsAny<T> extends false ? true : false) : false]. *)
Definition IsUnknown (T : ty) : ty :=
  conditional (boxed T) (boxed TUnknown)
    (conditional (IsAny T) TFalse TTrue TFalse)
    TFalse.

(** [IsExact<A, B> = [A] extends [B] ? ([B] extends [A] ? true : false) : false]. *)
Definition IsExact (A B : ty) : ty :=
  conditional (boxed A) (boxed B)
    (conditional (boxed B) (boxed A) TTrue TFalse)
    TFalse.

(** ** The union aliases *)

(** [IsUnion<T> = [T] extends [infer U]
      ? U extends any ? [U] extends [T] ? false : true : never
      : false].
    [U] is inferred as [T]; the conditional on the naked [U] distributes. *)
Definition IsUnion (T : ty) : ty :=
  let U := T in
  conditional (boxed T) (boxed U)
    (distribute (fun U =>
       conditional U TAny
         (conditional (boxed U) (boxed T) TFalse TTrue)
         TNever) U)
    TFalse.

(** ** The branding aliases *)

(** [Brand<T, Name> = T & { readonly __brand: Name }], [Name] a string
    literal. *)
Definition brand_tag (Name : string) : ty :=
  TRecord [("__brand", (TStr Name, false, true))].

Definition Brand (T : ty) (Name : string) : ty :=
  intersect2 T (brand_tag Name).

(** ** The object aliases *)

(** [RenameKey<T, From, To> = To extends keyof T
      ? T : Omit<T, From> & { [K in To]: T[From] }]. *)
Definition RenameKey (T From To : ty) : ty :=
  distribute (fun To =>
    conditional To (keyof T)
      T
      (intersect2 (Omit T From)
                  (mapped_keys To (fun _ => index_access T From)))) To.

(** [ObjectPaths<T, Prefix> = { [K in keyof T]-?: K extends string
      ? Prefix extends "" ? K | ObjectPaths<T[K], K>
        : `${Prefix}.${K}` | ObjectPaths<T[K], `${Prefix}.${K}`>
      : never }[keyof T]].
    [d] bounds the nesting of the alias in itself; past it the checker
    reports an error and continues with its error type. *)
Definition join_path (Prefix K : string) : string :=
  if String.eqb Prefix "" then K else Prefix ++ "." ++ K.

Fixpoint ObjectPaths_at (d : nat) (T : ty) (Prefix : string) : ty :=
  match d with
  | 0 => TAny
  | S d' =>
      index_access
        (homomorphic Remove Keep
           (fun K TK =>
              match K with
              | TLit (LStr k) =>
                  union_of [TStr (join_path Prefix k);
                            ObjectPaths_at d' TK (join_path Prefix k)]
              | _ => TNever
              end) T)
        (keyof T)
  end.

Definition ObjectPaths (T : ty) : ty := ObjectPaths_at (S (ty_depth T)) T "".

(** ** deep/index.ts *)

(** [DeepPick<T, K> = K extends `${infer First}.${infer Rest}`
      ? First extends keyof T ? { [P in First]: DeepPick<T[First], Rest> }
                              : Record<never, never>
      : K extends keyof T ? { [P in K]: T[P] } : Record<never, never>].
    [K] is a string literal, given by its text; [First] is the text before
    the first dot, collected in [first] while [k] is read. *)
Fixpoint DeepPick_from (T : ty) (first k : string) : ty :=
  match k with
  | String "." Rest =>
      conditional (TStr first) (keyof T)
        (mapped_keys (TStr first)
           (fun _ => DeepPick_from (index_access T (TStr first)) "" Rest))
        TEmpty
  | String c k' => DeepPick_from T (first ++ String c "") k'
  | EmptyString =>
      conditional (TStr first) (keyof T)
        (mapped_keys (TStr first) (fun P => index_access T (TStr P)))
        TEmpty
  end.

Definition DeepPick (T : ty) (K : string) : ty := DeepPick_from T "" K.

(** [DeepValue<T, Path> = Path extends `${infer Key}.${infer Rest}`
      ? Key extends keyof T ? DeepValue<T[Key], Rest> : never
      : Path extends keyof T ? T[Path] : never]. *)
Fixpoint DeepValue_from (T : ty) (key p : string) : ty :=
  match p with
  | String "." Rest =>
      conditional (TStr key) (keyof T)
        (DeepValue_from (index_access T (TStr key)) "" Rest)
        TNever
  | String c p' => DeepValue_from T (key ++ String c "") p'
  | EmptyString =>
      conditional (TStr key) (keyof T) (index_access T (TStr key)) TNever
  end.

Definition DeepValue (T : ty) (Path : string) : ty := DeepValue_from T "" Path.

(** [DeepPartial<T> = T extends object
      ? { [K in keyof T]?: DeepPartial<T[K]> } : T], and its three siblings
    [DeepRequired] ([-?]), [DeepReadonly] ([readonly]), [DeepMutable]
    ([-readonly]); [d] bounds the nesting of the alias in itself. *)
Definition deep_body (mopt mro : modifier) (self : ty -> ty) (T : ty) : ty :=
  conditional T TObject (homomorphic mopt mro (fun _ TK => self TK) T) T.

Fixpoint deep_modify (mopt mro : modifier) (d : nat) (T : ty) : ty :=
  match d with
  | 0 => TAny
  | S d' => distribute (deep_body mopt mro (deep_modify mopt mro d')) T
  end.

Definition DeepPartial (T : ty) : ty := deep_modify Add Keep (S (ty_depth T)) T.
Definition DeepReadonly (T : ty) : ty := deep_modify Keep Add (S (ty_depth T)) T.

(** [DeepKeys<T, Prefix> = { [K in keyof T]-?: K extends string
      ? Prefix extends ""
        ? K | (T[K] extends object ? DeepKeys<T[K], K> : never)
        : `${Prefix}.${K}`
          | (T[K] extends object ? DeepKeys<T[K], `${Prefix}.${K}`> : never)
      : never }[keyof T]]. *)
Fixpoint DeepKeys_at (d : nat) (T : ty) (Prefix : string) : ty :=
  match d with
  | 0 => TAny
  | S d' =>
      index_access
        (homomorphic Remove Keep
           (fun K TK =>
              match K with
              | TLit (LStr k) =>
                  union_of [TStr (join_path Prefix k);
                            conditional TK TObject
                              (DeepKeys_at d' TK (join_path Prefix k))
                              TNever]
              | _ => TNever
              end) T)
        (keyof T)
  end.

Definition DeepKeys (T : ty) : ty := DeepKeys_at (S (ty_depth T)) T "".

End Checker.

(** ** A standard library

    The part of the standard declarations the examples below read:
    [String.length] and [Array.length] (the latter is built into
    [array_props]); no other member is declared. *)

Definition es_wrapper_members (w : wrapper) : list prop :=
  match w with
  | WString => [("length", (TNumber, false, true))]
  | _ => []
  end.

Definition es_array_members (ro : bool) (e : ty) : list prop := [].

(** * The remaining aliases of the library *)

(** ** More of the tuple aliases *)

(** A tuple type lists its required elements before the optional ones: an
    optional element that is followed by a required one is made required. *)
Fixpoint normalize_optional (es : list (ty * bool)) : list (ty * bool) :=
  match es with
  | [] => []
  | (t, o) :: r =>
      (t, o && negb (existsb (fun e => negb (snd e)) r)) :: normalize_optional r
  end.

(** [[H, ...R]]: the spread distributes over a union; spreading an array
    gives a rest element, widened to an array as in [TuplePush]. *)
Definition cons_spread (H R : ty) : ty :=
  distribute (fun R =>
    match R with
    | TTuple _ es => TTuple false ((H, false) :: es)
    | TArray _ e => TArray false (union_of [H; e])
    | _ => TArray false TAny
    end) R.

(** [TupleHead<T> = T extends readonly [infer H, ...any[]] ? H : never].
    From [any] nothing is inferred and [H] is [unknown]. *)
Definition TupleHead (T : ty) : ty :=
  distribute (fun T =>
    match T with
    | TTuple _ ((H, false) :: _) => H
    | TAny => TUnknown
    | _ => TNever
    end) T.

(** [TupleTail<T> = T extends readonly [any, ...infer R] ? R : []]. *)
Definition TupleTail (T : ty) : ty :=
  distribute (fun T =>
    match T with
    | TTuple _ ((_, false) :: R) => TTuple false R
    | TAny => union_of [TArray false TUnknown; TTuple false []]
    | _ => TTuple false []
    end) T.

(** [TupleLast<T> = T extends readonly [...any[], infer L] ? L : never]. *)
Definition TupleLast (T : ty) : ty :=
  distribute (fun T =>
    match T with
    | TTuple _ es =>
        match rev es with
        | (L, false) :: _ => L
        | _ => TNever
        end
    | TAny => TUnknown
    | _ => TNever
    end) T.

(** [TupleInit<T> = T extends readonly [...infer I, any] ? I : []], the same
    right-hand side as [TuplePop]. *)
Definition TupleInit (T : ty) : ty := TuplePop T.

(** [TupleShift<T> = T extends readonly [any, ...infer R] ? R : []], the
    same right-hand side as [TupleTail]. *)
Definition TupleShift (T : ty) : ty := TupleTail T.

(** [TupleUnshift<T, V> = [V, ...T]]. *)
Definition TupleUnshift (T V : ty) : ty := cons_spread V T.

(** [TupleConcat<A, B> = [...A, ...B]]. *)
Definition TupleConcat (A B : ty) : ty :=
  distribute (fun A =>
    distribute (fun B =>
      match A, B with
      | TTuple _ es, TTuple _ es' => TTuple false (normalize_optional (es ++ es'))
      | TTuple _ es, TArray _ e => TArray false (union_of (map fst es ++ [e]))
      | TArray _ e, TTuple _ es => TArray false (union_of (e :: map fst es))
      | TArray _ e, TArray _ e' => TArray false (union_of [e; e'])
      | _, _ => TArray false TAny
      end) B) A.

(** [TupleReverse<T, R = []> = T extends readonly [infer H, ...infer Tail]
      ? TupleReverse<Tail, [H, ...R]> : R]. *)
Fixpoint TupleReverse_elems (es : list (ty * bool)) (R : ty) : ty :=
  match es with
  | (H, false) :: Tail => TupleReverse_elems Tail (cons_spread H R)
  | _ => R
  end.

Definition TupleReverse_into (T R : ty) : ty :=
  distribute (fun T =>
    match T with
    | TTuple _ es => TupleReverse_elems es R
    | TAny => union_of [cons_spread TUnknown R; R]
    | _ => R
    end) T.

Definition TupleReverse (T : ty) : ty := TupleReverse_into T (TTuple false []).

(** [TupleStrict<T> = ReadonlyTuple<T> = readonly [...T]]. *)
Definition ReadonlyTuple (T : ty) : ty :=
  distribute (fun T =>
    match T with
    | TTuple _ es => TTuple true es
    | TArray _ e => TArray true e
    | _ => TArray true TAny
    end) T.

(** ** More of function/index.ts *)

(** [R extends (...args: infer Args) => infer RReturn
      ? (arg: A, ...args: Args) => RReturn : (arg: A) => R], on the naked
    [R].  For [R = any] the first branch has a rest parameter
    ([Args] is [unknown[]]), which the fragment lacks: only the second
    branch is kept there. *)
Definition Uncurry_link (X R : ty) : ty :=
  distribute (fun R =>
    match R with
    | TFn Args RReturn => TFn (X :: Args) RReturn
    | _ => TFn [X] R
    end) R.

(** [Uncurry<T> = T extends (arg: infer A) => infer R ? ... : T].  A
    function without parameters also extends the pattern, with nothing
    inferred for [A], which is then [unknown]; a function with two or more
    parameters does not.  On [any] the union of both branches is [any]. *)
Definition Uncurry (T : ty) : ty :=
  distribute (fun T =>
    match T with
    | TFn [] R => Uncurry_link TUnknown R
    | TFn [X] R => Uncurry_link X R
    | _ => T
    end) T.

(** ** More of the branding aliases *)

(** [Id<T> = Brand<string, `${T}:id`>]. *)
Definition Id (T : string) : ty := Brand TString (T ++ ":id").

(** [UUID], [Email], [NonEmptyString], [PositiveNumber], [NegativeNumber],
    [Int]. *)
Definition UUID : ty := Brand TString "UUID".
Definition Email : ty := Brand TString "Email".
Definition NonEmptyString : ty := Brand TString "NonEmptyString".
Definition PositiveNumber : ty := Brand TNumber "PositiveNumber".
Definition NegativeNumber : ty := Brand TNumber "NegativeNumber".
Definition Int : ty := Brand TNumber "Int".

(** ** Template-literal matching *)

(** [s extends `${infer X}c${infer Y}`]: [X] is the text before the first
    [c] and [Y] the text after it. *)
Fixpoint split_at (c : ascii) (s : string) : option (string * string) :=
  match s with
  | EmptyString => None
  | String d s' =>
      if Ascii.eqb d c then Some (EmptyString, s')
      else match split_at c s' with
           | Some (x, y) => Some (String d x, y)
           | None => None
           end
  end.

Section MoreAliases.

Variable W : wrapper -> list prop.
Variable A : bool -> ty -> list prop.

(** [TupleLength<T> = T["length"]]. *)
Definition TupleLength (T : ty) : ty := index_access W A T (TStr "length").

(** [TupleToUnion<T> = T[number]]. *)
Definition TupleToUnion (T : ty) : ty := index_access W A T TNumber.

(** [TupleIncludes<T, V> = V extends T[number] ? true : false]. *)
Definition TupleIncludes (T V : ty) : ty :=
  distribute (fun V => conditional W A V (index_access W A T TNumber) TTrue TFalse) V.

(** [TupleIndex<T, V, I = []> = T extends readonly [infer H, ...infer Tail]
      ? H extends V ? I["length"] : TupleIndex<Tail, V, [...I, 1]>
      : -1].
    The test on the naked [H] distributes. *)
Fixpoint TupleIndex_elems (es : list (ty * bool)) (V I : ty) : ty :=
  match es with
  | (H, false) :: Tail =>
      distribute (fun H =>
        conditional W A H V
          (index_access W A I (TStr "length"))
          (TupleIndex_elems Tail V (TuplePush I (TLit (LNum 1))))) H
  | _ => TLit (LNum (-1))
  end.

Definition TupleIndex (T V : ty) : ty :=
  distribute (fun T =>
    match T with
    | TTuple _ es => TupleIndex_elems es V (TTuple false [])
    | TAny =>
        union_of [conditional W A TUnknown V (TLit (LNum 0)) (TLit (LNum (-1)));
                  TLit (LNum (-1))]
    | _ => TLit (LNum (-1))
    end) T.

(** [TupleFilter<T, Condition> = T extends readonly [infer H, ...infer Tail]
      ? H extends Condition ? [H, ...TupleFilter<Tail, Condition>]
                            : TupleFilter<Tail, Condition>
      : []]. *)
Fixpoint TupleFilter_elems (es : list (ty * bool)) (Condition : ty) : ty :=
  match es with
  | (H, false) :: Tail =>
      distribute (fun H =>
        conditional W A H Condition
          (cons_spread H (TupleFilter_elems Tail Condition))
          (TupleFilter_elems Tail Condition)) H
  | _ => TTuple false []
  end.

Definition TupleFilter (T Condition : ty) : ty :=
  distribute (fun T =>
    match T with
    | TTuple _ es => TupleFilter_elems es Condition
    | TAny =>
        union_of [conditional W A TUnknown Condition
                    (TTuple false [(TUnknown, false)]) (TTuple false []);
                  TTuple false []]
    | _ => TTuple false []
    end) T.

(** ** More of guard/index.ts *)


(** [IsLiteral<T> = T extends boolean ? false
      : T extends bigint | number | string ? true : false]. *)
Definition IsLiteral (T : ty) : ty :=
  distribute (fun T =>
    conditional W A T TBoolean TFalse
      (conditional W A T (TUnion [TPrim PBigint; TNumber; TString]) TTrue TFalse)) T.

(** ** More of the object aliases *)

(** [Extract<T, U> = T extends U ? T : never]. *)
Definition Extract (t u : ty) : ty :=
  distribute (fun m => conditional W A m u m TNever) t.

(** [Merge<A, B> = Omit<A, keyof B> & B]; [Overwrite] is the same alias. *)
Definition Merge (X Y : ty) : ty :=
  intersect2 (Omit W A X (keyof W A Y)) Y.

(** [Diff<A, B> = Omit<A, keyof B>]; [Without] is the same alias. *)
Definition Diff (X Y : ty) : ty := Omit W A X (keyof W A Y).

(** [Intersect<A, B> = Pick<A, Extract<keyof A, keyof B>>]. *)
Definition Intersect (X Y : ty) : ty :=
  Pick W A X (Extract (keyof W A X) (keyof W A Y)).

(** [Mutable<T> = { -readonly [K in keyof T]: T[K] }]. *)
Definition Mutable (T : ty) : ty :=
  homomorphic W A Keep Remove (fun _ TK => TK) T.

(** [ValueOf<T> = T[keyof T]]. *)
Definition ValueOf (T : ty) : ty := index_access W A T (keyof W A T).

(** [ObjectPathValue<T, Path>]: the right-hand side of [DeepValue], written
    a second time in the object file. *)
Fixpoint ObjectPathValue_from (T : ty) (key p : string) : ty :=
  match p with
  | String "." Rest =>
      conditional W A (TStr key) (keyof W A T)
        (ObjectPathValue_from (index_access W A T (TStr key)) "" Rest)
        TNever
  | String c p' => ObjectPathValue_from T (key ++ String c "") p'
  | EmptyString =>
      conditional W A (TStr key) (keyof W A T)
        (index_access W A T (TStr key)) TNever
  end.

Definition ObjectPathValue (T : ty) (Path : string) : ty :=
  ObjectPathValue_from T "" Path.

(** [FlattenObject<T> = T extends object
      ? { [K in keyof T]-?: T[K] extends object ? FlattenObject<T[K]> : T[K]
        }[keyof T]
      : T]. *)
Fixpoint FlattenObject_at (d : nat) (T : ty) : ty :=
  match d with
  | 0 => TAny
  | S d' =>
      distribute (fun T =>
        conditional W A T TObject
          (index_access W A
             (homomorphic W A Remove Keep
                (fun _ TK =>
                   conditional W A TK TObject (FlattenObject_at d' TK) TK) T)
             (keyof W A T))
          T) T
  end.

Definition FlattenObject (T : ty) : ty := FlattenObject_at (S (ty_depth T)) T.

(** ** More of deep/index.ts *)

(** [DeepOmit<T, K> = K extends `${infer First}.${infer Rest}`
      ? First extends keyof T
        ? { [P in Exclude<keyof T, First>]: T[P] }
          & { [P in First]: DeepOmit<T[First], Rest> }
        : T
      : Omit<T, K & keyof T>].
    The first mapped type ranges over an [Exclude], not over [keyof] of a
    type variable, so its properties are required and writable. *)
Fixpoint DeepOmit_from (T : ty) (first k : string) : ty :=
  match k with
  | String "." Rest =>
      conditional W A (TStr first) (keyof W A T)
        (intersect2
           (mapped_keys (Exclude W A (keyof W A T) (TStr first))
              (fun P => index_access W A T (TStr P)))
           (mapped_keys (TStr first)
              (fun _ => DeepOmit_from (index_access W A T (TStr first)) "" Rest)))
        T
  | String c k' => DeepOmit_from T (first ++ String c "") k'
  | EmptyString => Omit W A T (intersect2 (TStr first) (keyof W A T))
  end.

Definition DeepOmit (T : ty) (K : string) : ty := DeepOmit_from T "" K.

(** ** More of the union aliases *)

(** [UnionDiff<A, B> = A extends any ? (B extends A ? never : A) : never];
    both conditionals are on a naked parameter and distribute. *)
Definition UnionDiff (X Y : ty) : ty :=
  distribute (fun X =>
    conditional W A X TAny
      (distribute (fun Y => conditional W A Y X TNever X) Y)
      TNever) X.

(** [UnionOverlap<A, B> = A extends any ? (B extends A ? A : never) : never]. *)
Definition UnionOverlap (X Y : ty) : ty :=
  distribute (fun X =>
    conditional W A X TAny
      (distribute (fun Y => conditional W A Y X X TNever) Y)
      TNever) X.

(** [UnionExclusive<A, B> = UnionDiff<A, B> | UnionDiff<B, A>]. *)
Definition UnionExclusive (X Y : ty) : ty :=
  union_of [UnionDiff X Y; UnionDiff Y X].

(** [UnionHas<U, V> = V extends U ? true : false]. *)
Definition UnionHas (U V : ty) : ty :=
  distribute (fun V => conditional W A V U TTrue TFalse) V.

(** [UnionFilter<U, Condition> = U extends Condition ? U : never] and
    [UnionReject<U, Condition> = U extends Condition ? never : U]. *)
Definition UnionFilter (U Condition : ty) : ty := Extract U Condition.
Definition UnionReject (U Condition : ty) : ty := Exclude W A U Condition.


(** ** More of the API aliases *)

(** [QueryParams<T> = { [K in keyof T]?: T[K] extends string ? string : string }]. *)
Definition QueryParams (T : ty) : ty :=
  homomorphic W A Add Keep
    (fun _ TK => conditional W A TK TString TString TString) T.

(** [RouteParams<Path> =
      Path extends `${infer _}:${infer Param}/${infer Rest}`
      ? { [K in Param | keyof RouteParams<`/${Rest}`>]: string }
      : Path extends `${infer _}:${infer Param}` ? { [K in Param]: string }
      : Record<never, never>].
    The placeholders are matched from the left, each up to the first
    occurrence of the text that follows it.  The properties are listed in
    the order of the keys as the model keeps them; the order in which the
    checker lists the properties of an object type is its own and tells
    nothing about the type. *)
Fixpoint RouteParams_at (d : nat) (Path : string) : ty :=
  match d with
  | 0 => TAny
  | S d' =>
      match split_at ":" Path with
      | None => TEmpty
      | Some (_, after) =>
          match split_at "/" after with
          | Some (Param, Rest) =>
              mapped_keys
                (union_of [TStr Param;
                           keyof W A (RouteParams_at d' (String "/" Rest))])
                (fun _ => TString)
          | None => mapped_keys (TStr after) (fun _ => TString)
          end
      end
  end.

Definition RouteParams (Path : string) : ty :=
  RouteParams_at (S (String.length Path)) Path.

End MoreAliases.

(** ** Vocabulary of the statements *)

(** A tuple of fixed arity: no optional element. *)
Definition all_required (es : list (ty * bool)) : bool :=
  forallb (fun e => negb (snd e)) es.

(** Names without their repetitions, as [dedup_from] leaves type lists. *)
Fixpoint dedup_names (seen l : list string) : list string :=
  match l with
  | [] => []
  | k :: l' =>
      if existsb (String.eqb k) seen then dedup_names seen l'
      else k :: dedup_names (k :: seen) l'
  end.

Definition has_name (k : string) (l : list string) : bool :=
  existsb (String.eqb k) l.

(** A path segment: a name without a dot. *)
Fixpoint dot_free (s : string) : bool :=
  match s with
  | EmptyString => true
  | String c s' => negb (Ascii.eqb c ".") && dot_free s'
  end.

(** The dot-path with the given segments. *)
Definition dot_path (segs : list string) : string := String.concat "." segs.

(** Following the segments [present] from [T] through record fields
    reaches [T']. *)
Fixpoint resolves (T : ty) (present : list string) (T' : ty) : Prop :=
  match present with
  | [] => T' = T
  | s :: ps =>
      exists fs f, T = TRecord fs /\ find_prop s fs = Some f
                   /\ resolves (fty f) ps T'
  end.

(** The record that holds [inner] under the nested names [segs]. *)
Definition nest (segs : list string) (inner : ty) : ty :=
  fold_right (fun s acc => TRecord [(s, (acc, false, false))]) inner segs.

(** Induction over descriptors, through the lists they nest. *)
Section TyInduction.

Variable P : ty -> Prop.
Hypothesis HAny : P TAny.
Hypothesis HUnknown : P TUnknown.
Hypothesis HNever : P TNever.
Hypothesis HPrim : forall p, P (TPrim p).
Hypothesis HLit : forall l, P (TLit l).
Hypothesis HRecord :
  forall fs, Forall (fun f : prop => P (fty (snd f))) fs -> P (TRecord fs).
Hypothesis HTuple :
  forall ro es, Forall (fun e : ty * bool => P (fst e)) es -> P (TTuple ro es).
Hypothesis HArray : forall ro e, P e -> P (TArray ro e).
Hypothesis HFn : forall ps r, Forall P ps -> P r -> P (TFn ps r).
Hypothesis HUnion : forall ms, Forall P ms -> P (TUnion ms).
Hypothesis HInter : forall ms, Forall P ms -> P (TInter ms).

Fixpoint ty_induction (t : ty) : P t :=
  match t with
  | TAny => HAny
  | TUnknown => HUnknown
  | TNever => HNever
  | TPrim p => HPrim p
  | TLit l => HLit l
  | TRecord fs =>
      HRecord fs
        ((fix all (l : list prop) : Forall (fun f : prop => P (fty (snd f))) l :=
            match l with
            | [] => Forall_nil _
            | f :: l' => Forall_cons f (ty_induction (fty (snd f))) (all l')
            end) fs)
  | TTuple ro es =>
      HTuple ro es
        ((fix all (l : list (ty * bool)) : Forall (fun e : ty * bool => P (fst e)) l :=
            match l with
            | [] => Forall_nil _
            | e :: l' => Forall_cons e (ty_induction (fst e)) (all l')
            end) es)
  | TArray ro e => HArray ro e (ty_induction e)
  | TFn ps r =>
      HFn ps r
        ((fix all (l : list ty) : Forall P l :=
            match l with
            | [] => Forall_nil _
            | m :: l' => Forall_cons m (ty_induction m) (all l')
            end) ps)
        (ty_induction r)
  | TUnion ms =>
      HUnion ms
        ((fix all (l : list ty) : Forall P l :=
            match l with
            | [] => Forall_nil _
            | m :: l' => Forall_cons m (ty_induction m) (all l')
            end) ms)
  | TInter ms =>
      HInter ms
        ((fix all (l : list ty) : Forall P l :=
            match l with
            | [] => Forall_nil _
            | m :: l' => Forall_cons m (ty_induction m) (all l')
            end) ms)
  end.

End TyInduction.

Definition is_union (t : ty) : bool :=
  match t with TUnion _ => true | _ => false end.

(** Descriptors made of records, primitives, literals and flat unions of
    these (the type read from an optional field is such a union). *)
Fixpoint plain (T : ty) : bool :=
  match T with
  | TAny | TUnknown | TNever | TLit _ => true
  | TPrim p => negb (prim_eqb p PObject)
  | TRecord fs => forallb (fun f : prop => plain (fty (snd f))) fs
  | TUnion ms => forallb (fun m => negb (is_union m) && plain m) ms
  | _ => false
  end.

(** The flag flip as the specification words it: every field of every
    nested record gets the modifiers, the field types are treated the same
    way, and what is not a record stays as it is. *)
Fixpoint deep_flags (mopt mro : modifier) (T : ty) : ty :=
  match T with
  | TRecord fs =>
      TRecord (map (fun f : prop =>
                      (fst f, mapped_field mopt mro
                                (fun _ t => deep_flags mopt mro t)
                                (TStr (fst f)) (snd f))) fs)
  | TUnion ms => union_of (map (deep_flags mopt mro) ms)
  | _ => T
  end.

(** [flag] holds of every field of every record in [T]. *)
Fixpoint every_field (flag : field -> bool) (T : ty) : bool :=
  match T with
  | TRecord fs =>
      forallb (fun f : prop => flag (snd f) && every_field flag (fty (snd f))) fs
  | TUnion ms => forallb (every_field flag) ms
  | _ => true
  end.

Definition nested_example : ty :=
  TRecord [("a", (TRecord [("b", (TString, false, false))], false, false))].

Definition readonly_example : ty :=
  TRecord [("firstName", (TString, false, true)); ("age", (TNumber, false, false))].

Definition handler_example : ty :=
  TRecord [("run", (TFn [] TString, false, false))].

Definition user_example : ty :=
  TRecord [("name", (TString, false, false));
           ("address", (TRecord [("city", (TString, false, false))], false, false))].

(** Base types, not unions, that branding keeps apart from the tag: the
    primitives other than [null] and [undefined], literals, and the object,
    tuple, array and function types without a [__brand] property of their
    own. *)
Definition brandable_atom (T : ty) : bool :=
  match T with
  | TPrim _ => negb (is_null_or_undefined T)
  | TLit _ | TTuple _ _ | TArray _ _ | TFn _ _ => true
  | TRecord fs => negb (has_name "__brand" (prop_names fs))
  | _ => false
  end.

(** The base types whose brands carry the tag: [unknown], the types above,
    and the unions of these and of [null] and [undefined] in which some
    member is neither [null] nor [undefined] ([boolean] is such a union). *)
Definition brandable (T : ty) : bool :=
  match T with
  | TUnknown => true
  | TUnion ms =>
      existsb brandable_atom ms
      && forallb (fun m => brandable_atom m || is_null_or_undefined m) ms
  | _ => brandable_atom T
  end.

(** A branded member: the tag alone, or a base met with the tag. *)
Definition tagged (a : string) (x : ty) : Prop :=
  x = brand_tag a
  \/ exists m, brandable_atom m = true /\ x = TInter [m; brand_tag a].

(** The tuple of the string literals [ks]. *)
Definition literal_tuple (ro : bool) (ks : list string) : ty :=
  TTuple ro (map (fun k => (TStr k, false)) ks).

(** The position of the first [k] in [ks] counted from [i], or [-1]. *)
Fixpoint first_index (k : string) (ks : list string) (i : Z) : Z :=
  match ks with
  | [] => (-1)%Z
  | h :: ks' => if String.eqb h k then i else first_index k ks' (i + 1)%Z
  end.

(** Elements over which a conditional type does not distribute. *)
Definition single (t : ty) : bool := negb (is_union t) && negb (is_never t).


Definition is_inter (t : ty) : bool :=
  match t with TInter _ => true | _ => false end.

(** The union of the string literals [l]. *)
Definition literal_union (l : list string) : ty := pack_union (map TStr l).

(** The fields of [fs] whose name is, or is not, among [names]. *)
Definition fields_in (names : list string) (fs : list prop) : list prop :=
  filter (fun f : prop => has_name (fst f) names) fs.

Definition fields_out (names : list string) (fs : list prop) : list prop :=
  filter (fun f : prop => negb (has_name (fst f) names)) fs.







(** The primitive types, [boolean] among them, and the literal types. *)
Definition primitive (T : ty) : bool :=
  match T with
  | TPrim _ | TLit _ => true
  | _ => ty_eqb T TBoolean
  end.

(** The segments of a route: static text or a named parameter. *)
Inductive segment : Type :=
| Static (text : string)
| Param (name : string).

(** Text without [:] and [/]. *)
Fixpoint segment_text (s : string) : bool :=
  match s with
  | EmptyString => true
  | String c s' =>
      negb (Ascii.eqb c ":") && negb (Ascii.eqb c "/") && segment_text s'
  end.

Definition well_formed (g : segment) : bool :=
  match g with
  | Static t => segment_text t
  | Param n => segment_text n
  end.

Fixpoint route (segs : list segment) : string :=
  match segs with
  | [] => EmptyString
  | Static t :: r => String "/" (t ++ route r)
  | Param n :: r => String "/" (String ":" (n ++ route r))
  end.

Fixpoint route_params (segs : list segment) : list string :=
  match segs with
  | [] => []
  | Static _ :: r => route_params r
  | Param n :: r => n :: route_params r
  end.

(** * Properties *)

Section GuardFacts.

Variable W : wrapper -> list prop.
Variable A : bool -> ty -> list prop.

Lemma related_top (n : nat) (s t : ty) :
  is_top t = true -> related W A (S n) s t = true.
Proof. intros H. cbn [related]. unfold related_step. now rewrite H. Qed.

Lemma related_from_any (n : nat) (t : ty) :
  related W A (S n) TAny t = is_top t || negb (is_never t).
Proof. cbn [related]. unfold related_step. destruct (is_top t); reflexivity. Qed.

(** Two boxed types are related exactly when their contents are. *)
Lemma related_boxed (n : nat) (s t : ty) :
  related W A (S (S n)) (boxed s) (boxed t) = related W A (S n) s t.
Proof.
  unfold boxed. cbn [related]. unfold related_step at 1.
  cbn [is_top is_any is_unknown orb related_structure elems_related negb andb forallb].
  now rewrite andb_true_r.
Qed.

Lemma assignable_boxed (s t : ty) :
  assignable W A (boxed s) (boxed t) = related W A 99 s t.
Proof. unfold assignable, relation_depth. apply related_boxed. Qed.

(** [[any]] extends [[B]] unless [B] is [never]; [[B]] always extends [[any]]. *)
Lemma assignable_boxed_any_l (B : ty) :
  assignable W A (boxed TAny) (boxed B) = negb (is_never B).
Proof.
  rewrite assignable_boxed, related_from_any.
  destruct B; reflexivity.
Qed.

Lemma assignable_boxed_any_r (B : ty) :
  assignable W A (boxed B) (boxed TAny) = true.
Proof. rewrite assignable_boxed. apply related_top. reflexivity. Qed.

(** C9, amended: for every type [B] other than [never], [IsExact<any, B>]
    and [IsExact<B, any>] are both [true]: the guard does not tell [any]
    from any type but [never]. *)
Theorem IsExact_any (B : ty) :
  B <> TNever ->
  IsExact W A TAny B = TTrue /\ IsExact W A B TAny = TTrue.
Proof.
  intros HB.
  assert (Hn : is_never B = false) by (destruct B; try reflexivity; congruence).
  unfold IsExact, conditional.
  change (is_top (boxed B)) with false.
  change (is_top (boxed TAny)) with false.
  change (is_any (boxed TAny)) with false.
  change (is_any (boxed B)) with false.
  cbv iota.
  rewrite assignable_boxed_any_l, assignable_boxed_any_r, Hn.
  split; reflexivity.
Qed.

(** C6: [IsUnknown<string>] evaluates to [true], while the documentation of
    the alias and the claim give [false]; so does every primitive and
    [never]; [unknown] gives [true] and [any] gives [false]. *)
Theorem IsUnknown_string :
  IsUnknown W A TString = TTrue
  /\ (forall p, IsUnknown W A (TPrim p) = TTrue)
  /\ IsUnknown W A TNever = TTrue
  /\ IsUnknown W A TUnknown = TTrue
  /\ IsUnknown W A TAny = TFalse.
Proof.
  split; [vm_compute; reflexivity |].
  split; [intros p; destruct p; vm_compute; reflexivity |].
  repeat split; vm_compute; reflexivity.
Qed.

(** C7: [IsUnion<string | number>] evaluates to [false], while the
    documentation of the alias and the claim give [true]; on [never] the
    alias gives [never], not [false]. *)
Theorem IsUnion_two_members :
  IsUnion W A (TUnion [TString; TNumber]) = TFalse
  /\ IsUnion W A TString = TFalse
  /\ IsUnion W A TNever = TNever.
Proof. repeat split; vm_compute; reflexivity. Qed.

End GuardFacts.

(** C9, as stated, fails at [B = never]: [IsExact<any, never>] is [false]. *)
Lemma IsExact_any_never :
  IsExact es_wrapper_members es_array_members TAny TNever = TFalse
  /\ IsExact es_wrapper_members es_array_members TNever TAny = TFalse.
Proof. split; vm_compute; reflexivity. Qed.

(** The amended C9 at [B = string]. *)
Lemma IsExact_any_witness :
  TString <> TNever
  /\ IsExact es_wrapper_members es_array_members TAny TString = TTrue
  /\ IsExact es_wrapper_members es_array_members TString TAny = TTrue.
Proof.
  split; [discriminate |].
  apply (IsExact_any es_wrapper_members es_array_members TString).
  discriminate.
Defined.

(** ** Currying *)

(** The chain [Curry] builds: one unary link per parameter, closed by a
    link without parameters. *)
Lemma Curry_chain (Args : list ty) (Return : ty) :
  Curry (TFn Args Return)
  = fold_right (fun a k => TFn [a] k) (TFn [] Return) Args.
Proof.
  unfold Curry, distribute.
  induction Args as [| a l IH]; simpl; [reflexivity |].
  now rewrite IH.
Qed.

(** C1: for the unary [F = (a: string) => string] the alias produces
    [(arg: string) => () => string]: after the link that takes the last
    parameter comes one more link, with no parameter, so the link taking
    [An] does not return [R] as the claim and the documented example say.
    A zero-arity [F] is left as [() => R]. *)
Theorem Curry_unary_extra_link :
  Curry (TFn [TString] TString) = TFn [TString] (TFn [] TString)
  /\ Curry (TFn [TString] TString) <> TFn [TString] TString
  /\ forall R, Curry (TFn [] R) = TFn [] R.
Proof.
  split; [reflexivity |].
  split; [discriminate | reflexivity].
Qed.

(** ** Tuples *)

Lemma required_elems_fixed (es : list (ty * bool)) :
  all_required es = true -> map (fun e => (fst e, false)) es = es.
Proof.
  unfold all_required.
  induction es as [| [t o] l IH]; simpl; intros H; [reflexivity |].
  apply andb_true_iff in H as [Ho Hl].
  destruct o; [discriminate |].
  now rewrite IH.
Qed.

(** C3, amended: for every fixed-arity tuple [S] and element type [x],
    [TuplePop<TuplePush<S, x>>] is the writable tuple with the elements of
    [S]; it is [S] itself when [S] is not [readonly]. *)
Theorem TuplePop_TuplePush (ro : bool) (es : list (ty * bool)) (x : ty) :
  all_required es = true ->
  TuplePop (TuplePush (TTuple ro es) x) = TTuple false es
  /\ (ro = false -> TuplePop (TuplePush (TTuple ro es) x) = TTuple ro es).
Proof.
  intros H.
  assert (E : TuplePop (TuplePush (TTuple ro es) x) = TTuple false es).
  { unfold TuplePush, TuplePop, distribute.
    rewrite (required_elems_fixed es H), rev_unit, rev_involutive.
    reflexivity. }
  split; [exact E |].
  intros ->. exact E.
Qed.

(** The amended C3 at [S = [string, number]], [x = boolean]. *)
Lemma TuplePop_TuplePush_witness :
  TuplePop (TuplePush (TTuple false [(TString, false); (TNumber, false)]) TBoolean)
  = TTuple false [(TString, false); (TNumber, false)].
Proof.
  apply (TuplePop_TuplePush false [(TString, false); (TNumber, false)] TBoolean);
    reflexivity.
Defined.

(** C3, as stated, fails for a [readonly] tuple: the spread in [TuplePush]
    makes a writable tuple, so the round trip does not give [S] back. *)
Lemma TuplePop_TuplePush_readonly :
  TuplePop (TuplePush (TTuple true [(TString, false)]) TNumber)
  = TTuple false [(TString, false)]
  /\ TuplePop (TuplePush (TTuple true [(TString, false)]) TNumber)
     <> TTuple true [(TString, false)].
Proof. split; [reflexivity | discriminate]. Qed.

(** ** Path enumeration *)

(** C10: on [{ name: string }] the two aliases differ.  [DeepKeys] stops at
    the primitive and gives ["name"]; [ObjectPaths] applies its mapped type
    to [string], which is then indexed by [keyof string], and gives the
    member types of [string] ([string] itself through the numeric index,
    [number] through [length]), which absorb ["name"]. *)
Theorem DeepKeys_ObjectPaths_differ :
  let R := TRecord [("name", (TString, false, false))] in
  DeepKeys es_wrapper_members es_array_members R = TStr "name"
  /\ ObjectPaths es_wrapper_members es_array_members R = TUnion [TString; TNumber]
  /\ DeepKeys es_wrapper_members es_array_members R
     <> ObjectPaths es_wrapper_members es_array_members R.
Proof.
  cbv zeta.
  split; [vm_compute; reflexivity |].
  split; [vm_compute; reflexivity |].
  vm_compute. discriminate.
Qed.

(** ** Keys of a record *)

Section KeyFacts.

Variable W : wrapper -> list prop.
Variable A : bool -> ty -> list prop.

Lemma mem_ty_names (k : string) (l : list string) :
  mem_ty (TStr k) (map TStr l) = has_name k l.
Proof.
  unfold mem_ty, has_name.
  induction l as [| a l IH]; [reflexivity |].
  cbn [map existsb]. rewrite IH. reflexivity.
Qed.

Lemma dedup_from_names (seen l : list string) :
  dedup_from (map TStr seen) (map TStr l) = map TStr (dedup_names seen l).
Proof.
  revert seen.
  induction l as [| k l IH]; intros seen; [reflexivity |].
  cbn [map dedup_from dedup_names].
  rewrite mem_ty_names. unfold has_name.
  destruct (existsb (String.eqb k) seen); [apply IH |].
  cbn [map]. f_equal. apply (IH (k :: seen)).
Qed.

Lemma has_name_dedup (k : string) (seen l : list string) :
  has_name k (dedup_names seen l) = has_name k l && negb (has_name k seen).
Proof.
  unfold has_name. revert seen.
  induction l as [| a l IH]; intros seen; simpl; [reflexivity |].
  destruct (existsb (String.eqb a) seen) eqn:Ha.
  - rewrite IH. destruct (String.eqb k a) eqn:Hk; [| reflexivity].
    apply String.eqb_eq in Hk. subst a. rewrite Ha.
    simpl. now rewrite andb_false_r.
  - simpl. rewrite IH. simpl.
    destruct (String.eqb k a) eqn:Hk; simpl.
    + apply String.eqb_eq in Hk. subst a. now rewrite Ha.
    + reflexivity.
Qed.

Lemma flat_names (l : list string) :
  flat_map union_members (map TStr l) = map TStr l.
Proof. induction l as [| a l IH]; simpl; [reflexivity | now rewrite IH]. Qed.

Lemma names_not_top (l : list string) :
  existsb is_any (map TStr l) = false /\ existsb is_unknown (map TStr l) = false.
Proof. induction l as [| a l [IH1 IH2]]; simpl; auto. Qed.

Lemma names_not_subsumed (d l : list string) :
  filter (fun t => negb (subsumed_literal (map TStr d) t)) (map TStr l) = map TStr l.
Proof.
  induction l as [| a l IH]; simpl; [reflexivity |].
  assert (E : mem_ty (TPrim PString) (map TStr d) = false).
  { unfold mem_ty. induction d as [| b d IHd]; simpl; auto. }
  rewrite E. simpl. now rewrite IH.
Qed.

(** The key type of a record is the union of its names. *)
Lemma union_of_names (l : list string) :
  union_of (map TStr l) = pack_union (map TStr (dedup_names [] l)).
Proof.
  unfold union_of. rewrite flat_names.
  destruct (names_not_top l) as [-> ->].
  unfold dedup. change (@nil ty) with (map TStr []).
  rewrite dedup_from_names, names_not_subsumed. reflexivity.
Qed.

Lemma keyof_record (fs : list prop) :
  keyof W A (TRecord fs) = pack_union (map TStr (dedup_names [] (prop_names fs))).
Proof.
  simpl. unfold key_names, prop_names.
  rewrite <- union_of_names, map_map. reflexivity.
Qed.

Lemma related_name_names (n : nat) (k : string) (l : list string) :
  related W A (S (S n)) (TStr k) (pack_union (map TStr l)) = has_name k l.
Proof.
  destruct l as [| a [| b l]].
  - reflexivity.
  - simpl. now rewrite orb_false_r.
  - change (related W A (S (S n)) (TStr k) (pack_union (map TStr (a :: b :: l))))
      with (existsb (fun m => related W A (S n) (TStr k) m) (map TStr (a :: b :: l))).
    unfold has_name. generalize (a :: b :: l) as l'.
    induction l' as [| c l' IH]; [reflexivity |].
    cbn [map existsb]. rewrite IH. reflexivity.
Qed.

(** ["k" extends keyof R] for a record [R] tests whether [k] names a field. *)
Lemma assignable_keyof_record (k : string) (fs : list prop) :
  assignable W A (TStr k) (keyof W A (TRecord fs)) = has_name k (prop_names fs).
Proof.
  rewrite keyof_record. unfold assignable, relation_depth.
  rewrite related_name_names, has_name_dedup. simpl. apply andb_true_r.
Qed.

Lemma keyof_record_not_top (fs : list prop) :
  is_top (keyof W A (TRecord fs)) = false.
Proof.
  rewrite keyof_record.
  destruct (dedup_names [] (prop_names fs)) as [| a [| b l]]; reflexivity.
Qed.

Lemma conditional_keyof_record (k : string) (fs : list prop) (x y : ty) :
  conditional W A (TStr k) (keyof W A (TRecord fs)) x y
  = if has_name k (prop_names fs) then x else y.
Proof.
  unfold conditional.
  rewrite keyof_record_not_top, assignable_keyof_record. reflexivity.
Qed.

Lemma find_prop_has_name (k : string) (fs : list prop) :
  has_name k (prop_names fs)
  = match find_prop k fs with Some _ => true | None => false end.
Proof.
  unfold has_name, prop_names.
  induction fs as [| [k' f] fs IH]; simpl; [reflexivity |].
  destruct (String.eqb k k'); [reflexivity | apply IH].
Qed.

Lemma index_access_field (fs : list prop) (k : string) (f : field) :
  find_prop k fs = Some f ->
  index_access W A (TRecord fs) (TStr k) = union_of [fty f].
Proof.
  intros H. unfold index_access. simpl. now rewrite H.
Qed.

Lemma union_of_record (fs : list prop) : union_of [TRecord fs] = TRecord fs.
Proof. reflexivity. Qed.

End KeyFacts.

(** ** Deep paths *)

Section PathFacts.

Variable W : wrapper -> list prop.
Variable A : bool -> ty -> list prop.

Lemma append_empty_r (s : string) : s ++ "" = s.
Proof. induction s as [| c s IH]; simpl; [reflexivity | now rewrite IH]. Qed.

Lemma append_char (acc : string) (c : ascii) (s : string) :
  (acc ++ String c "") ++ s = acc ++ String c s.
Proof. induction acc as [| a acc IH]; simpl; [reflexivity | now rewrite IH]. Qed.

Ltac by_ascii c :=
  destruct c as [[|] [|] [|] [|] [|] [|] [|] [|]];
  try reflexivity; try discriminate.

Lemma DeepPick_from_char (T : ty) (acc : string) (c : ascii) (k : string) :
  Ascii.eqb c "." = false ->
  DeepPick_from W A T acc (String c k) = DeepPick_from W A T (acc ++ String c "") k.
Proof. by_ascii c. Qed.

Lemma DeepValue_from_char (T : ty) (acc : string) (c : ascii) (k : string) :
  Ascii.eqb c "." = false ->
  DeepValue_from W A T acc (String c k) = DeepValue_from W A T (acc ++ String c "") k.
Proof. by_ascii c. Qed.

(** Reading a segment that is followed by a dot: the source's
    [K extends `${infer First}.${infer Rest}`] branch. *)
Lemma DeepPick_from_segment (T : ty) (acc s rest : string) :
  dot_free s = true ->
  DeepPick_from W A T acc (s ++ String "." rest)
  = conditional W A (TStr (acc ++ s)) (keyof W A T)
      (mapped_keys (TStr (acc ++ s))
         (fun _ => DeepPick_from W A (index_access W A T (TStr (acc ++ s))) "" rest))
      TEmpty.
Proof.
  revert acc. induction s as [| c s IH]; intros acc H.
  - rewrite append_empty_r. reflexivity.
  - simpl in H. apply andb_true_iff in H as [Hc Hs].
    apply negb_true_iff in Hc.
    change (String c s ++ String "." rest) with (String c (s ++ String "." rest)).
    rewrite (DeepPick_from_char T acc c _ Hc), (IH _ Hs), append_char.
    reflexivity.
Qed.

(** Reading the last segment: the branch without a dot. *)
Lemma DeepPick_from_last (T : ty) (acc s : string) :
  dot_free s = true ->
  DeepPick_from W A T acc s
  = conditional W A (TStr (acc ++ s)) (keyof W A T)
      (mapped_keys (TStr (acc ++ s)) (fun P => index_access W A T (TStr P)))
      TEmpty.
Proof.
  revert acc. induction s as [| c s IH]; intros acc H.
  - rewrite append_empty_r. reflexivity.
  - simpl in H. apply andb_true_iff in H as [Hc Hs].
    apply negb_true_iff in Hc.
    rewrite (DeepPick_from_char T acc c _ Hc), (IH _ Hs), append_char.
    reflexivity.
Qed.

Lemma DeepValue_from_segment (T : ty) (acc s rest : string) :
  dot_free s = true ->
  DeepValue_from W A T acc (s ++ String "." rest)
  = conditional W A (TStr (acc ++ s)) (keyof W A T)
      (DeepValue_from W A (index_access W A T (TStr (acc ++ s))) "" rest)
      TNever.
Proof.
  revert acc. induction s as [| c s IH]; intros acc H.
  - rewrite append_empty_r. reflexivity.
  - simpl in H. apply andb_true_iff in H as [Hc Hs].
    apply negb_true_iff in Hc.
    change (String c s ++ String "." rest) with (String c (s ++ String "." rest)).
    rewrite (DeepValue_from_char T acc c _ Hc), (IH _ Hs), append_char.
    reflexivity.
Qed.

Lemma DeepValue_from_last (T : ty) (acc s : string) :
  dot_free s = true ->
  DeepValue_from W A T acc s
  = conditional W A (TStr (acc ++ s)) (keyof W A T)
      (index_access W A T (TStr (acc ++ s))) TNever.
Proof.
  revert acc. induction s as [| c s IH]; intros acc H.
  - rewrite append_empty_r. reflexivity.
  - simpl in H. apply andb_true_iff in H as [Hc Hs].
    apply negb_true_iff in Hc.
    rewrite (DeepValue_from_char T acc c _ Hc), (IH _ Hs), append_char.
    reflexivity.
Qed.

Lemma dot_path_cons (s r : string) (l : list string) :
  dot_path (s :: r :: l) = s ++ String "." (dot_path (r :: l)).
Proof. reflexivity. Qed.

Lemma resolves_record (T : ty) (ps : list string) (fs' : list prop) :
  resolves T ps (TRecord fs') -> exists gs, T = TRecord gs.
Proof.
  destruct ps as [| s ps]; simpl.
  - intros <-. now exists fs'.
  - intros (fs & f & -> & _). now exists fs.
Qed.

End PathFacts.

Section AbsentSegment.

Variable W : wrapper -> list prop.
Variable A : bool -> ty -> list prop.

Lemma absent_name (k : string) (fs : list prop) :
  find_prop k fs = None -> has_name k (prop_names fs) = false.
Proof. intros H. now rewrite find_prop_has_name, H. Qed.

Lemma present_name (k : string) (fs : list prop) (f : field) :
  find_prop k fs = Some f -> has_name k (prop_names fs) = true.
Proof. intros H. now rewrite find_prop_has_name, H. Qed.

Lemma DeepPick_absent (T : ty) (present : list string) (fs' : list prop)
    (absent : string) (rest : list string) :
  Forall (fun s => dot_free s = true) (present ++ absent :: rest) ->
  resolves T present (TRecord fs') ->
  find_prop absent fs' = None ->
  DeepPick W A T (dot_path (present ++ absent :: rest)) = nest present TEmpty.
Proof.
  unfold DeepPick. revert T.
  induction present as [| s ps IH]; intros T Hd Hr Ha.
  - simpl in Hr. subst T. simpl app in *.
    apply Forall_inv in Hd.
    destruct rest as [| r l].
    + change (dot_path [absent]) with absent.
      rewrite (DeepPick_from_last W A _ "" absent Hd).
      change ("" ++ absent) with absent.
      rewrite conditional_keyof_record, (absent_name _ _ Ha). reflexivity.
    + rewrite dot_path_cons, (DeepPick_from_segment W A _ "" absent _ Hd).
      change ("" ++ absent) with absent.
      rewrite conditional_keyof_record, (absent_name _ _ Ha). reflexivity.
  - simpl in Hr. destruct Hr as (fs & f & -> & Hf & Hr).
    destruct (resolves_record _ _ _ Hr) as [gs Hg].
    pose proof (Forall_inv Hd) as Hs. apply Forall_inv_tail in Hd.
    assert (E : dot_path ((s :: ps) ++ absent :: rest)
                = s ++ String "." (dot_path (ps ++ absent :: rest))).
    { destruct ps; reflexivity. }
    rewrite E, (DeepPick_from_segment W A _ "" s _ Hs).
    change ("" ++ s) with s.
    rewrite conditional_keyof_record, (present_name _ _ _ Hf).
    rewrite (index_access_field W A fs s f Hf), Hg, union_of_record, <- Hg.
    rewrite (IH (fty f) Hd Hr Ha). reflexivity.
Qed.

Lemma DeepValue_absent (T : ty) (present : list string) (fs' : list prop)
    (absent : string) (rest : list string) :
  Forall (fun s => dot_free s = true) (present ++ absent :: rest) ->
  resolves T present (TRecord fs') ->
  find_prop absent fs' = None ->
  DeepValue W A T (dot_path (present ++ absent :: rest)) = TNever.
Proof.
  unfold DeepValue. revert T.
  induction present as [| s ps IH]; intros T Hd Hr Ha.
  - simpl in Hr. subst T. simpl app in *.
    apply Forall_inv in Hd.
    destruct rest as [| r l].
    + change (dot_path [absent]) with absent.
      rewrite (DeepValue_from_last W A _ "" absent Hd).
      change ("" ++ absent) with absent.
      rewrite conditional_keyof_record, (absent_name _ _ Ha). reflexivity.
    + rewrite dot_path_cons, (DeepValue_from_segment W A _ "" absent _ Hd).
      change ("" ++ absent) with absent.
      rewrite conditional_keyof_record, (absent_name _ _ Ha). reflexivity.
  - simpl in Hr. destruct Hr as (fs & f & -> & Hf & Hr).
    destruct (resolves_record _ _ _ Hr) as [gs Hg].
    pose proof (Forall_inv Hd) as Hs. apply Forall_inv_tail in Hd.
    assert (E : dot_path ((s :: ps) ++ absent :: rest)
                = s ++ String "." (dot_path (ps ++ absent :: rest))).
    { destruct ps; reflexivity. }
    rewrite E, (DeepValue_from_segment W A _ "" s _ Hs).
    change ("" ++ s) with s.
    rewrite conditional_keyof_record, (present_name _ _ _ Hf).
    rewrite (index_access_field W A fs s f Hf), Hg, union_of_record, <- Hg.
    apply (IH (fty f) Hd Hr Ha).
Qed.

(** C2, amended: when the path follows fields [present] of nested records
    and then names a segment [absent] that the record reached does not
    have, [DeepPick] yields the records nested under the present segments
    with the empty record in the place of the absent one (the empty record
    itself when the first segment is absent), and [DeepValue] yields
    [never]. *)
Theorem Deep_absent_segment (T : ty) (present : list string)
    (fs' : list prop) (absent : string) (rest : list string) :
  Forall (fun s => dot_free s = true) (present ++ absent :: rest) ->
  resolves T present (TRecord fs') ->
  find_prop absent fs' = None ->
  DeepPick W A T (dot_path (present ++ absent :: rest)) = nest present TEmpty
  /\ DeepValue W A T (dot_path (present ++ absent :: rest)) = TNever.
Proof.
  intros Hd Hr Ha. split.
  - now apply DeepPick_absent with (fs' := fs').
  - now apply DeepValue_absent with (fs' := fs').
Qed.

End AbsentSegment.

(** C2, as stated, fails when the absent segment is not the first one:
    [DeepPick<{ a: { b: string } }, "a.x">] is [{ a: {} }], a record with
    the field [a], not the empty record. *)
Lemma DeepPick_nested_absent :
  DeepPick es_wrapper_members es_array_members nested_example "a.x"
  = TRecord [("a", (TEmpty, false, false))]
  /\ DeepPick es_wrapper_members es_array_members nested_example "a.x" <> TEmpty.
Proof. split; vm_compute; [reflexivity | discriminate]. Qed.

(** The amended C2 at [{ a: { b: string } }] and the path ["a.x.y"]. *)
Lemma Deep_absent_segment_witness :
  DeepPick es_wrapper_members es_array_members nested_example (dot_path ["a"; "x"; "y"])
  = nest ["a"] TEmpty
  /\ DeepValue es_wrapper_members es_array_members nested_example (dot_path ["a"; "x"; "y"])
     = TNever.
Proof.
  apply (Deep_absent_segment es_wrapper_members es_array_members nested_example
           ["a"] [("b", (TString, false, false))] "x" ["y"]).
  - repeat constructor.
  - simpl. eexists. eexists. repeat split.
  - reflexivity.
Defined.

(** ** Renaming a key *)

Section RenameFacts.

Variable W : wrapper -> list prop.
Variable A : bool -> ty -> list prop.

Lemma dedup_names_nodup (seen l : list string) :
  NoDup l -> (forall k, In k l -> ~ In k seen) -> dedup_names seen l = l.
Proof.
  revert seen. induction l as [| k l IH]; intros seen Hn Hs; [reflexivity |].
  simpl. inversion Hn as [| ? ? Hk Hl]; subst.
  destruct (existsb (String.eqb k) seen) eqn:E.
  - apply existsb_exists in E as (x & Hx & Hkx).
    apply String.eqb_eq in Hkx. subst x.
    exfalso. apply (Hs k); [now left | assumption].
  - f_equal. apply IH; [assumption |].
    intros x Hx [<- | Hin]; [contradiction |].
    apply (Hs x); [now right | assumption].
Qed.

Lemma union_of_flat (l l' : list ty) :
  flat_map union_members l = flat_map union_members l' -> union_of l = union_of l'.
Proof. unfold union_of. now intros ->. Qed.

Lemma string_keys_names (l : list string) :
  string_keys (pack_union (map TStr l)) = l.
Proof.
  unfold string_keys.
  assert (E : forall l', flat_map (fun m => match m with
                                             | TLit (LStr s) => [s]
                                             | _ => []
                                             end) (map TStr l') = l').
  { induction l' as [| a l' IH]; simpl; [reflexivity | now rewrite IH]. }
  destruct l as [| a [| b l]]; [reflexivity | reflexivity |].
  change (union_members (pack_union (map TStr (a :: b :: l))))
    with (map TStr (a :: b :: l)).
  apply E.
Qed.

(** [Exclude<keyof R, "from">] keeps the other names of [R]. *)
Lemma Exclude_name (l : list string) (from : string) :
  NoDup l ->
  Exclude W A (pack_union (map TStr l)) (TStr from)
  = pack_union (map TStr (filter (fun a => negb (String.eqb a from)) l)).
Proof.
  intros Hn.
  set (g := fun a : string => if String.eqb a from then TNever else TStr a).
  assert (Ec : forall a, conditional W A (TStr a) (TStr from) TNever (TStr a) = g a).
  { intros a. unfold g. reflexivity. }
  assert (Eg : Exclude W A (pack_union (map TStr l)) (TStr from) = union_of (map g l)).
  { unfold Exclude. destruct l as [| a [| b l]].
    - reflexivity.
    - simpl pack_union. unfold distribute. simpl map.
      rewrite Ec. unfold g. destruct (String.eqb a from); reflexivity.
    - change (pack_union (map TStr (a :: b :: l))) with (TUnion (map TStr (a :: b :: l))).
      unfold distribute. rewrite map_map.
      f_equal; try (apply map_ext; intros x; apply Ec). }
  rewrite Eg.
  rewrite (union_of_flat (map g l)
             (map TStr (filter (fun a => negb (String.eqb a from)) l))).
  - rewrite union_of_names, dedup_names_nodup; [reflexivity | | intros ? ? []].
    now apply NoDup_filter.
  - rewrite flat_names. clear Hn Eg.
    induction l as [| a l IH]; [reflexivity |].
    cbn [map flat_map filter]. unfold g at 1.
    destruct (String.eqb a from); simpl; now rewrite IH.
Qed.

Lemma find_prop_in (fs : list prop) :
  NoDup (prop_names fs) ->
  forall p, In p fs -> find_prop (fst p) fs = Some (snd p).
Proof.
  induction fs as [| [k f] fs IH]; intros Hn p Hp; [destruct Hp |].
  simpl in Hn. inversion Hn as [| ? ? Hk Hl]; subst.
  destruct Hp as [<- | Hp].
  - simpl. now rewrite String.eqb_refl.
  - simpl. destruct (String.eqb (fst p) k) eqn:E.
    + apply String.eqb_eq in E. subst k.
      exfalso. apply Hk. unfold prop_names. now apply in_map.
    + now apply IH.
Qed.

(** Picking names of [R] itself keeps the chosen properties as they are. *)
Lemma Pick_names (fs gs : list prop) (P : string -> bool) :
  (forall p, In p gs -> find_prop (fst p) fs = Some (snd p)) ->
  flat_map (fun s => match lookup_prop W A (TRecord fs) s with
                     | Some f => [(s, f)]
                     | None => []
                     end) (filter P (prop_names gs))
  = filter (fun p : prop => P (fst p)) gs.
Proof.
  induction gs as [| [k f] gs IH]; intros H; [reflexivity |].
  cbn [prop_names map filter fst].
  assert (Hk : find_prop k fs = Some f) by (apply (H (k, f)); now left).
  assert (IH' := IH (fun p Hp => H p (or_intror Hp))).
  destruct (P k).
  - cbn [flat_map]. cbn [lookup_prop]. rewrite Hk. simpl. f_equal. exact IH'.
  - exact IH'.
Qed.

Lemma Omit_record (fs : list prop) (from : string) :
  NoDup (prop_names fs) ->
  Omit W A (TRecord fs) (TStr from)
  = TRecord (filter (fun p : prop => negb (String.eqb (fst p) from)) fs).
Proof.
  intros Hn. unfold Omit, Pick.
  rewrite keyof_record, dedup_names_nodup; [| assumption | intros ? ? []].
  rewrite (Exclude_name _ _ Hn), string_keys_names.
  f_equal.
  apply (Pick_names fs fs (fun a => negb (String.eqb a from))).
  now apply find_prop_in.
Qed.

End RenameFacts.

Section RenameKey.

Variable W : wrapper -> list prop.
Variable A : bool -> ty -> list prop.

Lemma absent_name_differs (to : string) (fs : list prop) :
  has_name to (prop_names fs) = false ->
  forall p, In p fs -> String.eqb to (fst p) = false.
Proof.
  unfold has_name, prop_names. intros H p Hp.
  destruct (String.eqb to (fst p)) eqn:E; [| reflexivity].
  rewrite <- H. symmetry. apply existsb_exists.
  exists (fst p). split; [now apply in_map | exact E].
Qed.

Lemma single_differs (to : string) (v : field) (gs : list prop) :
  (forall p, In p gs -> String.eqb to (fst p) = false) ->
  ty_eqb (TRecord [(to, v)]) (TRecord gs) = false.
Proof.
  intros H. destruct gs as [| [k [[t o] r]] gs]; destruct v as [[vt vo] vr].
  - reflexivity.
  - pose proof (H (k, (t, o, r)) (or_introl eq_refl)) as E.
    cbn in E |- *. rewrite E. reflexivity.
Qed.

Lemma single_no_conflict (to : string) (v : field) (gs : list prop) :
  (forall p, In p gs -> String.eqb to (fst p) = false) ->
  props_conflict gs [(to, v)] = false.
Proof.
  unfold props_conflict. intros H.
  induction gs as [| p gs IH]; [reflexivity |].
  cbn [existsb fst snd].
  rewrite String.eqb_sym, (H p (or_introl eq_refl)).
  cbn [andb orb]. apply IH. intros q Hq. apply H. now right.
Qed.

Lemma intersect2_records (X Y : list prop) :
  ty_eqb (TRecord Y) (TRecord X) = false ->
  props_conflict X Y = false ->
  intersect2 (TRecord X) (TRecord Y) = TInter [TRecord X; TRecord Y].
Proof.
  intros He Hc.
  change (intersect2 (TRecord X) (TRecord Y))
    with (intersect_atoms (TRecord X) (TRecord Y)).
  unfold intersect_atoms, dedup.
  cbn [is_never is_any orb inter_members app dedup_from mem_ty existsb].
  rewrite He.
  cbn [orb any_disjoint existsb disjoint_pair].
  rewrite Hc. reflexivity.
Qed.

(** C4, amended: when [to] already names a field of [R], [RenameKey] is
    [R] unchanged; otherwise the result is the intersection of [R] without
    [from] (all other fields with their triples) and a record with the one
    field [to], which carries the type read from [from] and is always
    required and writable, whatever flags [from] had. *)
Theorem RenameKey_record (fs : list prop) (from to : string) :
  NoDup (prop_names fs) ->
  has_name from (prop_names fs) = true ->
  RenameKey W A (TRecord fs) (TStr from) (TStr to)
  = if has_name to (prop_names fs) then TRecord fs
    else TInter
           [TRecord (filter (fun p : prop => negb (String.eqb (fst p) from)) fs);
            TRecord [(to, (index_access W A (TRecord fs) (TStr from), false, false))]].
Proof.
  intros Hn _.
  unfold RenameKey. unfold distribute at 1. cbn iota.
  rewrite conditional_keyof_record.
  destruct (has_name to (prop_names fs)) eqn:Ht; [reflexivity |].
  rewrite (Omit_record W A fs from Hn).
  change (mapped_keys (TStr to) (fun _ => index_access W A (TRecord fs) (TStr from)))
    with (TRecord [(to, (index_access W A (TRecord fs) (TStr from), false, false))]).
  pose proof (absent_name_differs to fs Ht) as Hd.
  assert (Hd' : forall p,
             In p (filter (fun p : prop => negb (String.eqb (fst p) from)) fs) ->
             String.eqb to (fst p) = false).
  { intros p Hp. apply Hd. now apply filter_In in Hp as [Hp _]. }
  apply intersect2_records.
  - now apply single_differs.
  - now apply single_no_conflict.
Qed.

End RenameKey.

(** C4, as stated, fails for a [readonly] field: the renamed field is
    writable, the flag of [firstName] is not carried over. *)
Lemma RenameKey_drops_readonly :
  lookup_prop es_wrapper_members es_array_members
    (RenameKey es_wrapper_members es_array_members readonly_example
       (TStr "firstName") (TStr "name")) "name"
  = Some (TString, false, false)
  /\ lookup_prop es_wrapper_members es_array_members readonly_example "firstName"
     = Some (TString, false, true).
Proof. split; vm_compute; reflexivity. Qed.

(** The amended C4 at [{ readonly firstName: string; age: number }]. *)
Lemma RenameKey_record_witness :
  RenameKey es_wrapper_members es_array_members readonly_example
    (TStr "firstName") (TStr "name")
  = TInter [TRecord [("age", (TNumber, false, false))];
            TRecord [("name", (TString, false, false))]].
Proof.
  apply (RenameKey_record es_wrapper_members es_array_members
           [("firstName", (TString, false, true)); ("age", (TNumber, false, false))]
           "firstName" "name").
  - repeat constructor; simpl; intuition discriminate.
  - reflexivity.
Defined.

(** ** Deep flag flips *)

Section DeepFlags.

Variable W : wrapper -> list prop.
Variable A : bool -> ty -> list prop.
Variables mopt mro : modifier.

(** On a member that is not a union the alias is its body. *)
Lemma deep_modify_member (d : nat) (T : ty) :
  is_union T = false ->
  deep_body W A mopt mro (deep_modify W A mopt mro d) T
  = deep_modify W A mopt mro (S d) T.
Proof.
  intros H. destruct T; try discriminate; reflexivity.
Qed.

Lemma deep_modify_union (d : nat) (ms : list ty) :
  deep_modify W A mopt mro (S d) (TUnion ms)
  = union_of (map (deep_body W A mopt mro (deep_modify W A mopt mro d)) ms).
Proof. reflexivity. Qed.

Lemma deep_modify_record (d : nat) (fs : list prop) :
  deep_modify W A mopt mro (S d) (TRecord fs)
  = TRecord (mapped_props mopt mro
               (fun _ TK => deep_modify W A mopt mro d TK) fs).
Proof. reflexivity. Qed.

Lemma field_depth (fs : list prop) (f : prop) :
  In f fs -> ty_depth (fty (snd f)) < ty_depth (TRecord fs).
Proof.
  intros H. simpl. apply Nat.lt_succ_r.
  assert (F : Forall (fun k => k <= list_max (map (fun f : prop => ty_depth (fty (snd f))) fs))
                (map (fun f : prop => ty_depth (fty (snd f))) fs))
    by (apply list_max_le; lia).
  rewrite Forall_forall in F. apply F.
  apply in_map_iff. now exists f.
Qed.

Lemma member_depth (ms : list ty) (m : ty) :
  In m ms -> ty_depth m < ty_depth (TUnion ms).
Proof.
  intros H. simpl. apply Nat.lt_succ_r.
  assert (F : Forall (fun k => k <= list_max (map ty_depth ms)) (map ty_depth ms))
    by (apply list_max_le; lia).
  rewrite Forall_forall in F. apply F. now apply in_map.
Qed.

(** With a nesting budget above the depth of a plain descriptor, the alias
    computes the flag flip. *)
Lemma deep_modify_plain (T : ty) :
  plain T = true ->
  forall d, ty_depth T < d -> deep_modify W A mopt mro d T = deep_flags mopt mro T.
Proof.
  induction T as [ | | | p | l | fs IH | | | | ms IH | ] using ty_induction;
    intros Hp d Hd; try discriminate Hp;
    (destruct d as [| d]; [lia |]).
  - reflexivity.
  - reflexivity.
  - reflexivity.
  - destruct p; try reflexivity; discriminate Hp.
  - destruct l; reflexivity.
  - rewrite deep_modify_record. cbn [deep_flags]. f_equal.
    unfold mapped_props. apply map_ext_in. intros f Hf.
    f_equal. unfold mapped_field.
    rewrite Forall_forall in IH.
    cbn [plain] in Hp. rewrite forallb_forall in Hp.
    pose proof (field_depth fs f Hf) as Hlt.
    rewrite (IH f Hf (Hp f Hf) d) by lia.
    reflexivity.
  - rewrite deep_modify_union. cbn [deep_flags]. f_equal.
    apply map_ext_in. intros m Hm.
    rewrite Forall_forall in IH.
    cbn [plain] in Hp. rewrite forallb_forall in Hp.
    specialize (Hp m Hm). apply andb_true_iff in Hp as [Hu Hpm].
    apply negb_true_iff in Hu.
    rewrite (deep_modify_member d m Hu).
    pose proof (member_depth ms m Hm) as Hlt.
    apply (IH m Hm Hpm). lia.
Qed.

End DeepFlags.

Section EveryField.

Variable flag : field -> bool.

Lemma in_dedup_from (x : ty) (seen l : list ty) :
  In x (dedup_from seen l) -> In x l.
Proof.
  revert seen. induction l as [| t l IH]; intros seen; simpl; [tauto |].
  destruct (mem_ty t seen).
  - intros H. right. now apply (IH seen).
  - intros [-> | H]; [now left | right; now apply (IH (t :: seen))].
Qed.

Lemma every_field_member (m x : ty) :
  every_field flag m = true -> In x (union_members m) -> every_field flag x = true.
Proof.
  destruct m; simpl; try (intros H [<- | []]; exact H).
  - intros _ [].
  - intros H Hx. rewrite forallb_forall in H. now apply H.
Qed.

Lemma every_field_pack (l : list ty) :
  (forall x, In x l -> every_field flag x = true) ->
  every_field flag (pack_union l) = true.
Proof.
  intros H. destruct l as [| a [| b l]].
  - reflexivity.
  - apply H. now left.
  - cbn [pack_union every_field]. now apply forallb_forall.
Qed.

(** A union built from members with the property has the property. *)
Lemma every_field_union_of (l : list ty) :
  (forall m, In m l -> every_field flag m = true) ->
  every_field flag (union_of l) = true.
Proof.
  intros H. unfold union_of.
  destruct (existsb is_any _); [reflexivity |].
  destruct (existsb is_unknown _); [reflexivity |].
  apply every_field_pack. intros x Hx.
  apply filter_In in Hx as [Hx _].
  apply in_dedup_from in Hx.
  apply in_flat_map in Hx as (m & Hm & Hx).
  apply (every_field_member m x); [now apply H | exact Hx].
Qed.

Lemma every_field_with_undefined (v : ty) :
  every_field flag v = true -> every_field flag (with_undefined v) = true.
Proof.
  intros H. apply every_field_union_of.
  intros m [<- | [<- | []]]; [exact H | reflexivity].
Qed.

Lemma every_field_strip_undefined (v : ty) :
  every_field flag v = true -> every_field flag (strip_undefined v) = true.
Proof.
  intros H. apply every_field_union_of.
  intros m Hm. apply filter_In in Hm as [Hm _].
  now apply (every_field_member v m).
Qed.

Variables mopt mro : modifier.

(** The modifiers set [flag] on every mapped property. *)
Hypothesis flag_set :
  forall template k f, flag (mapped_field mopt mro template k f) = true.

Lemma every_field_deep_flags (T : ty) :
  every_field flag (deep_flags mopt mro T) = true.
Proof.
  induction T as [ | | | p | l | fs IH | | | | ms IH | ] using ty_induction;
    try reflexivity.
  - cbn [deep_flags every_field].
    apply forallb_forall. intros g Hg.
    apply in_map_iff in Hg as (f & <- & Hf).
    rewrite Forall_forall in IH. specialize (IH f Hf).
    cbn [snd]. rewrite flag_set. cbn [andb].
    unfold mapped_field, fty at 1. cbn [fst].
    destruct (apply_mod mopt (fopt (snd f))).
    + now apply every_field_with_undefined.
    + destruct (fopt (snd f)); [now apply every_field_strip_undefined | exact IH].
  - cbn [deep_flags]. apply every_field_union_of.
    intros m Hm. apply in_map_iff in Hm as (x & <- & Hx).
    rewrite Forall_forall in IH. now apply IH.
Qed.

End EveryField.

Section DeepPartialReadonly.

Variable W : wrapper -> list prop.
Variable A : bool -> ty -> list prop.

(** C5, amended: on every descriptor made of records, primitives, literals
    and unions of these, [DeepPartial] ([DeepReadonly]) is the flag flip
    [deep_flags]: every field of every nested record at every depth becomes
    optional (readonly), field types are treated the same way, and the
    recursion ends at primitives, which stay as they are. *)
Theorem Deep_flags_plain (T : ty) :
  plain T = true ->
  DeepPartial W A T = deep_flags Add Keep T
  /\ DeepReadonly W A T = deep_flags Keep Add T
  /\ every_field fopt (DeepPartial W A T) = true
  /\ every_field fro (DeepReadonly W A T) = true.
Proof.
  intros Hp.
  assert (E1 : DeepPartial W A T = deep_flags Add Keep T)
    by (apply deep_modify_plain; [exact Hp | lia]).
  assert (E2 : DeepReadonly W A T = deep_flags Keep Add T)
    by (apply deep_modify_plain; [exact Hp | lia]).
  rewrite E1, E2. repeat split.
  - apply every_field_deep_flags. reflexivity.
  - apply every_field_deep_flags. reflexivity.
Qed.

(** Primitives are left as they are. *)
Lemma Deep_flags_primitive (p : prim) :
  p <> PObject ->
  DeepPartial W A (TPrim p) = TPrim p /\ DeepReadonly W A (TPrim p) = TPrim p.
Proof.
  intros _. destruct p; split; reflexivity.
Qed.

End DeepPartialReadonly.

(** C5, as stated, fails for a Signature: in [{ run: () => string }] the
    function type is replaced by the empty object type, it is not left
    unchanged; a tuple is mapped element by element and made readonly. *)
Lemma DeepReadonly_signature :
  DeepReadonly es_wrapper_members es_array_members handler_example
  = TRecord [("run", (TEmpty, false, true))]
  /\ DeepPartial es_wrapper_members es_array_members handler_example
     = TRecord [("run", (TUnion [TEmpty; TUndefined], true, false))]
  /\ DeepReadonly es_wrapper_members es_array_members
       (TRecord [("point", (TTuple false [(TNumber, false)], false, false))])
     = TRecord [("point", (TTuple true [(TNumber, false)], false, true))].
Proof. repeat split; vm_compute; reflexivity. Qed.

(** The amended C5 at [{ name: string; address: { city: string } }]. *)
Lemma Deep_flags_plain_witness :
  DeepPartial es_wrapper_members es_array_members user_example
  = deep_flags Add Keep user_example
  /\ DeepReadonly es_wrapper_members es_array_members user_example
     = deep_flags Keep Add user_example
  /\ every_field fopt (DeepPartial es_wrapper_members es_array_members user_example) = true
  /\ every_field fro (DeepReadonly es_wrapper_members es_array_members user_example) = true.
Proof.
  apply (Deep_flags_plain es_wrapper_members es_array_members user_example).
  reflexivity.
Defined.

(** ** Branding *)

Section BrandFacts.

Variable W : wrapper -> list prop.
Variable A : bool -> ty -> list prop.

(** The standard library declares no member called [__brand]. *)
Hypothesis wrapper_no_brand : forall w, find_prop "__brand" (W w) = None.
Hypothesis array_no_brand : forall ro e, find_prop "__brand" (A ro e) = None.

Lemma find_prop_app (k : string) (fs gs : list prop) :
  find_prop k (fs ++ gs)
  = match find_prop k fs with Some f => Some f | None => find_prop k gs end.
Proof.
  induction fs as [| [k' f] fs IH]; simpl; [reflexivity |].
  destruct (String.eqb k k'); [reflexivity | exact IH].
Qed.

Lemma index_name_not_brand (i : nat) : String.eqb "__brand" (index_name i) = false.
Proof. unfold index_name. destruct (Nat.to_uint i); reflexivity. Qed.

Lemma index_props_no_brand (ro : bool) (es : list (ty * bool)) (i : nat) :
  find_prop "__brand" (index_props ro i es) = None.
Proof.
  revert i. induction es as [| [t o] es IH]; intros i; [reflexivity |].
  cbn [index_props find_prop]. rewrite index_name_not_brand. apply IH.
Qed.

Lemma absent_find (k : string) (fs : list prop) :
  has_name k (prop_names fs) = false -> find_prop k fs = None.
Proof.
  rewrite find_prop_has_name. destruct (find_prop k fs); [discriminate | reflexivity].
Qed.

Lemma brandable_no_brand (T : ty) :
  brandable_atom T = true -> lookup_prop W A T "__brand" = None.
Proof.
  destruct T as [ | | | p | l | fs | ro es | ro e | ps r | ms | ms ];
    try discriminate; intros H; cbn [lookup_prop].
  - destruct (wrapper_of_prim p); [apply wrapper_no_brand | reflexivity].
  - apply wrapper_no_brand.
  - apply absent_find. cbn [brandable_atom] in H. now apply negb_true_iff in H.
  - unfold tuple_props. rewrite find_prop_app, index_props_no_brand.
    cbn [find_prop]. change (String.eqb "__brand" "length") with false.
    cbn iota. apply array_no_brand.
  - unfold array_props. cbn [find_prop].
    change (String.eqb "__brand" "length") with false.
    cbn iota. apply array_no_brand.
  - reflexivity.
Qed.

(** Branding a base that is not a union is the intersection of the base
    and the tag. *)
Lemma Brand_brandable (T : ty) (a : string) :
  brandable_atom T = true -> Brand T a = TInter [T; brand_tag a].
Proof.
  intros H. unfold Brand.
  destruct T as [ | | | p | l | fs | ro es | ro e | ps r | ms | ms ];
    try discriminate.
  - destruct p; try discriminate; reflexivity.
  - reflexivity.
  - cbn [brandable_atom] in H. apply negb_true_iff in H.
    pose proof (absent_name_differs "__brand" fs H) as Hd.
    apply intersect2_records.
    + now apply single_differs.
    + now apply single_no_conflict.
  - reflexivity.
  - reflexivity.
  - reflexivity.
Qed.

(** [null] and [undefined] have no branded values. *)
Lemma Brand_null (T : ty) (a : string) :
  is_null_or_undefined T = true -> Brand T a = TNever.
Proof.
  destruct T as [ | | | p | | | | | | | ]; try discriminate.
  destruct p; try discriminate; reflexivity.
Qed.

(** Branding distributes over a union. *)
Lemma Brand_union (ms : list ty) (a : string) :
  Brand (TUnion ms) a = union_of (map (fun m => Brand m a) ms).
Proof. reflexivity. Qed.

Lemma tagged_not_literal (a : string) (l : list ty) (x : ty) :
  tagged a x -> subsumed_literal l x = false /\ is_any x = false /\ is_unknown x = false.
Proof. intros [-> | (m & _ & ->)]; repeat split. Qed.

Lemma tagged_members (a : string) (x y : ty) :
  tagged a x -> In y (union_members x) -> y = x.
Proof. intros [-> | (m & _ & ->)] [<- | []]; reflexivity. Qed.

(** The brand of a brandable base is a branded member or a union of
    branded members, and it is not [never]. *)
Lemma Brand_members (T : ty) (a : string) :
  brandable T = true ->
  exists L, Brand T a = pack_union L /\ L <> [] /\ forall x, In x L -> tagged a x.
Proof.
  intros H.
  assert (Atom : forall X, brandable_atom X = true ->
            exists L, Brand X a = pack_union L /\ L <> []
                      /\ forall x, In x L -> tagged a x).
  { intros X HX. exists [TInter [X; brand_tag a]]. split.
    - now apply Brand_brandable.
    - split; [discriminate |]. intros x [<- | []]. right. now exists X. }
  destruct T as [ | | | p | l | fs | ro es | ro e | ps r | ms | ms ];
    try discriminate H; try (now apply Atom).
  - exists [brand_tag a]. split; [reflexivity |].
    split; [discriminate | intros x [<- | []]; now left].
  - cbn [brandable] in H. apply andb_true_iff in H as [He Hf].
    rewrite forallb_forall in Hf.
    set (flat := flat_map union_members (map (fun m => Brand m a) ms)).
    assert (Ht : forall x, In x flat -> tagged a x).
    { intros x Hx. apply in_flat_map in Hx as (y & Hy & Hx).
      apply in_map_iff in Hy as (m & <- & Hm).
      specialize (Hf m Hm). apply orb_true_iff in Hf as [Hb | Hn].
      - rewrite (Brand_brandable m a Hb) in Hx. destruct Hx as [<- | []].
        right. now exists m.
      - rewrite (Brand_null m a Hn) in Hx. destruct Hx. }
    assert (Hne : flat <> []).
    { apply existsb_exists in He as (m & Hm & Hb).
      assert (Hin : In (TInter [m; brand_tag a]) flat).
      { apply in_flat_map. exists (Brand m a). split.
        - apply in_map_iff. now exists m.
        - rewrite (Brand_brandable m a Hb). now left. }
      intros E. rewrite E in Hin. destruct Hin. }
    rewrite Brand_union. unfold union_of. fold flat.
    destruct (existsb is_any flat) eqn:Ea.
    { apply existsb_exists in Ea as (x & Hx & Ex).
      destruct (tagged_not_literal a [] x (Ht x Hx)) as (_ & E & _). congruence. }
    destruct (existsb is_unknown flat) eqn:Eu.
    { apply existsb_exists in Eu as (x & Hx & Ex).
      destruct (tagged_not_literal a [] x (Ht x Hx)) as (_ & _ & E). congruence. }
    eexists. split; [reflexivity |]. split.
    + destruct flat as [| x0 rest]; [congruence |].
      unfold dedup. cbn [dedup_from mem_ty existsb filter].
      destruct (tagged_not_literal a (x0 :: dedup_from [x0] rest) x0
                  (Ht x0 (or_introl eq_refl))) as (-> & _ & _).
      discriminate.
    + intros x Hx. apply filter_In in Hx as [Hx _].
      apply in_dedup_from in Hx. now apply Ht.
Qed.

End BrandFacts.

Section BrandTokens.

Variable W : wrapper -> list prop.
Variable A : bool -> ty -> list prop.
Hypothesis wrapper_no_brand : forall w, find_prop "__brand" (W w) = None.
Hypothesis array_no_brand : forall ro e, find_prop "__brand" (A ro e) = None.

Lemma props_related_tag (rel : ty -> ty -> bool) (s : ty) (b : string) :
  props_related W A rel s [("__brand", (TStr b, false, true))]
  = match lookup_prop W A s "__brand" with
    | Some f => negb (fopt f) && rel (fty f) (TStr b)
    | None => false
    end.
Proof.
  unfold props_related. cbn [forallb fst snd fopt fty orb].
  destruct (lookup_prop W A s "__brand"); [| reflexivity].
  now rewrite andb_true_r.
Qed.

(** A brandable base has no [__brand] and so is not assignable to a tag. *)
Lemma base_not_tagged (n : nat) (T : ty) (b : string) :
  brandable_atom T = true -> related W A n T (brand_tag b) = false.
Proof.
  intros H. destruct n as [| n]; [reflexivity |].
  pose proof (brandable_no_brand W A wrapper_no_brand array_no_brand T H) as Hl.
  destruct T as [ | | | p | l | fs | ro es | ro e | ps r | ms | ms ];
    try discriminate;
    cbn [related]; unfold related_step, brand_tag;
    cbn [is_top is_any is_unknown orb];
    try (destruct p; try discriminate H);
    cbn [related_structure]; rewrite props_related_tag, Hl;
    apply andb_false_r.
Qed.

(** Two tags with different tokens are unrelated. *)
Lemma tags_unrelated (n : nat) (a b : string) :
  a <> b -> related W A n (brand_tag a) (brand_tag b) = false.
Proof.
  intros Hab. destruct n as [| n]; [reflexivity |].
  cbn [related]. unfold related_step, brand_tag.
  cbn [is_top is_any is_unknown orb related_structure is_nullish negb andb].
  rewrite props_related_tag. cbn [lookup_prop find_prop].
  rewrite String.eqb_refl. cbn [fopt fty fst snd negb andb].
  destruct n as [| n]; [reflexivity |].
  cbn [related]. unfold related_step, TStr.
  cbn [is_top is_any is_unknown orb related_structure lit_eqb].
  now apply String.eqb_neq.
Qed.

(** The [__brand] of a branded base is the token put on it. *)
Lemma branded_lookup (T : ty) (a : string) :
  brandable_atom T = true ->
  lookup_prop W A (TInter [T; brand_tag a]) "__brand" = Some (TStr a, false, true).
Proof.
  intros H. cbn [lookup_prop map].
  rewrite (brandable_no_brand W A wrapper_no_brand array_no_brand T H).
  reflexivity.
Qed.

Lemma branded_not_tagged (n : nat) (T : ty) (a b : string) :
  brandable_atom T = true -> a <> b ->
  related W A n (TInter [T; brand_tag a]) (brand_tag b) = false.
Proof.
  intros H Hab. destruct n as [| n]; [reflexivity |].
  pose proof (base_not_tagged n T b H) as E1.
  pose proof (tags_unrelated n a b Hab) as E2.
  pose proof (branded_lookup T a H) as E3.
  cbn [related]. unfold related_step, brand_tag in E1, E2, E3 |- *.
  cbn [is_top is_any is_unknown orb related_structure existsb].
  rewrite E1, E2.
  cbn [orb]. rewrite props_related_tag, E3.
  cbn [fopt fty fst snd negb andb].
  destruct n as [| n]; [reflexivity |].
  cbn [related]. unfold related_step, TStr.
  cbn [is_top is_any is_unknown orb related_structure lit_eqb].
  now apply String.eqb_neq.
Qed.

(** A member branded [a] is not assignable to the tag [b]. *)
Lemma tagged_not_tag (n : nat) (x : ty) (a b : string) :
  tagged a x -> a <> b -> related W A n x (brand_tag b) = false.
Proof.
  intros [-> | (m & Hm & ->)] Hab.
  - now apply tags_unrelated.
  - now apply branded_not_tagged.
Qed.

(** Nor to a member branded [b]. *)
Lemma tagged_unrelated (n : nat) (x y : ty) (a b : string) :
  tagged a x -> tagged b y -> a <> b -> related W A n x y = false.
Proof.
  intros Hx [-> | (u & Hu & ->)] Hab.
  - now apply (tagged_not_tag n x a b).
  - destruct n as [| n]; [reflexivity |].
    pose proof (tagged_not_tag n x a b Hx Hab) as E.
    cbn [related]. unfold related_step.
    cbn [is_top is_any is_unknown orb].
    destruct Hx as [-> | (m & Hm & ->)].
    + unfold brand_tag at 1. cbn [forallb]. rewrite E. now rewrite andb_false_r.
    + cbn [forallb]. rewrite E. now rewrite andb_false_r.
Qed.

Lemma tagged_pack_not_top (b : string) (L : list ty) :
  (forall y, In y L -> tagged b y) -> is_top (pack_union L) = false.
Proof.
  intros H. destruct L as [| y [| z L]]; try reflexivity.
  destruct (H y (or_introl eq_refl)) as [-> | (m & _ & ->)]; reflexivity.
Qed.

Lemma tagged_to_pack (n : nat) (x : ty) (L : list ty) (a b : string) :
  tagged a x -> (forall y, In y L -> tagged b y) -> a <> b ->
  related W A n x (pack_union L) = false.
Proof.
  intros Hx HL Hab. destruct L as [| y [| z L]].
  - destruct n as [| n]; [reflexivity |].
    destruct Hx as [-> | (m & _ & ->)]; reflexivity.
  - apply (tagged_unrelated n x y a b Hx); [| exact Hab]. apply HL. now left.
  - destruct n as [| n]; [reflexivity |].
    change (pack_union (y :: z :: L)) with (TUnion (y :: z :: L)).
    assert (E : existsb (fun m => related W A n x m) (y :: z :: L) = false).
    { destruct (existsb _ _) eqn:X; [| reflexivity].
      apply existsb_exists in X as (t & Ht & Et).
      now rewrite (tagged_unrelated n x t a b Hx (HL t Ht) Hab) in Et. }
    cbn [related]. unfold related_step.
    cbn [is_top is_any is_unknown orb].
    destruct Hx as [-> | (m & _ & ->)]; [unfold brand_tag at 1 |]; exact E.
Qed.

Lemma pack_to_pack (n : nat) (K L : list ty) (a b : string) :
  K <> [] -> (forall x, In x K -> tagged a x) ->
  (forall y, In y L -> tagged b y) -> a <> b ->
  related W A n (pack_union K) (pack_union L) = false.
Proof.
  intros Hne HK HL Hab. destruct K as [| x [| x' K]]; [congruence | |].
  - apply (tagged_to_pack n x L a b); auto. apply HK. now left.
  - destruct n as [| n]; [reflexivity |].
    change (pack_union (x :: x' :: K)) with (TUnion (x :: x' :: K)).
    cbn [related]. unfold related_step.
    rewrite (tagged_pack_not_top b L HL).
    cbn [forallb].
    rewrite (tagged_to_pack n x L a b (HK x (or_introl eq_refl)) HL Hab).
    reflexivity.
Qed.

(** C8, amended: let [T] and [U] be base types (equal or not) that are
    [unknown], a primitive other than [null] and [undefined], a literal, an
    object, tuple, array or function type without a [__brand] property of
    its own, or a union of such types and of [null] and [undefined] with a
    member that is neither ([boolean] is one).  For distinct tokens [a] and
    [b], neither of [Brand<T, a>] and [Brand<U, b>] is assignable to the
    other: two branded types with different tokens are never compatible,
    whatever their bases. *)
Theorem Brand_tokens_incompatible (T U : ty) (a b : string) :
  brandable T = true -> brandable U = true -> a <> b ->
  assignable W A (Brand T a) (Brand U b) = false
  /\ assignable W A (Brand U b) (Brand T a) = false.
Proof.
  intros HT HU Hab.
  destruct (Brand_members T a HT) as (K & -> & HK & HKt).
  destruct (Brand_members U b HU) as (L & -> & HL & HLt).
  unfold assignable. split.
  - now apply (pack_to_pack _ K L a b).
  - apply (pack_to_pack _ L K b a); auto.
Qed.

End BrandTokens.

(** C8, as stated, fails for the base types [any], [never], [null] and
    [undefined] and for an object type whose own [__brand] is another
    literal: branding them gives [any] or [never] whatever the token, and
    these are assignable to themselves.  Nor need the bases match exactly:
    a branded literal is assignable to the equally branded [string]. *)
Lemma Brand_any_compatible :
  Brand TAny "A" = TAny /\ Brand TAny "B" = TAny
  /\ assignable es_wrapper_members es_array_members (Brand TAny "A") (Brand TAny "B") = true
  /\ assignable es_wrapper_members es_array_members (Brand TAny "B") (Brand TAny "A") = true
  /\ assignable es_wrapper_members es_array_members (Brand TNever "A") (Brand TNever "B") = true
  /\ assignable es_wrapper_members es_array_members
       (Brand (TStr "x") "A") (Brand TString "A") = true
  /\ assignable es_wrapper_members es_array_members (Brand TNull "A") (Brand TNull "B") = true
  /\ assignable es_wrapper_members es_array_members
       (Brand TUndefined "A") (Brand TUndefined "B") = true
  /\ assignable es_wrapper_members es_array_members
       (Brand (TRecord [("__brand", (TStr "X", false, false))]) "A")
       (Brand (TRecord [("__brand", (TStr "X", false, false))]) "B") = true.
Proof. repeat split; vm_compute; reflexivity. Qed.

(** The amended C8 at [T = string], [U = boolean] with the tokens of the
    documentation. *)
Lemma Brand_tokens_incompatible_witness :
  assignable es_wrapper_members es_array_members
    (Brand TString "UserId") (Brand TBoolean "ProductId") = false
  /\ assignable es_wrapper_members es_array_members
       (Brand TBoolean "ProductId") (Brand TString "UserId") = false.
Proof.
  apply (Brand_tokens_incompatible es_wrapper_members es_array_members).
  - intros w. destruct w; reflexivity.
  - reflexivity.
  - reflexivity.
  - reflexivity.
  - discriminate.
Defined.

(** * Properties of the remaining aliases *)

(** ** Tuples: reversal and the ends *)

Lemma all_required_app (es es' : list (ty * bool)) :
  all_required (es ++ es') = all_required es && all_required es'.
Proof. unfold all_required. apply forallb_app. Qed.

Lemma all_required_rev (es : list (ty * bool)) :
  all_required es = true -> all_required (rev es) = true.
Proof.
  unfold all_required. rewrite !forallb_forall.
  intros H e He. apply H. now apply in_rev.
Qed.

Lemma TupleReverse_elems_required (es acc : list (ty * bool)) :
  all_required es = true ->
  TupleReverse_elems es (TTuple false acc) = TTuple false (rev es ++ acc).
Proof.
  revert acc. induction es as [| [t o] es IH]; intros acc H; [reflexivity |].
  cbn in H. apply andb_true_iff in H as [Ho H].
  destruct o; [discriminate |].
  cbn [TupleReverse_elems]. unfold cons_spread, distribute.
  rewrite (IH _ H). cbn [rev]. now rewrite <- app_assoc.
Qed.

Lemma TupleReverse_required (ro : bool) (es : list (ty * bool)) :
  all_required es = true -> TupleReverse (TTuple ro es) = TTuple false (rev es).
Proof.
  intros H. unfold TupleReverse, TupleReverse_into, distribute.
  rewrite (TupleReverse_elems_required es [] H). now rewrite app_nil_r.
Qed.

(** X1: reversing a fixed-arity tuple gives the writable tuple of its
    elements in reverse order, and reversing twice gives the elements back
    in their order. *)
Theorem TupleReverse_involutive (ro : bool) (es : list (ty * bool)) :
  all_required es = true ->
  TupleReverse (TTuple ro es) = TTuple false (rev es)
  /\ TupleReverse (TupleReverse (TTuple ro es)) = TTuple false es.
Proof.
  intros H.
  split; [now apply TupleReverse_required |].
  rewrite (TupleReverse_required ro es H),
    (TupleReverse_required false (rev es) (all_required_rev es H)).
  now rewrite rev_involutive.
Qed.

Lemma TupleReverse_involutive_witness :
  TupleReverse (TTuple true [(TString, false); (TNumber, false)])
  = TTuple false [(TNumber, false); (TString, false)]
  /\ TupleReverse (TupleReverse (TTuple true [(TString, false); (TNumber, false)]))
     = TTuple false [(TString, false); (TNumber, false)].
Proof.
  apply (TupleReverse_involutive true [(TString, false); (TNumber, false)]).
  reflexivity.
Defined.

(** X2: what [TupleUnshift] puts in front, [TupleHead] reads and
    [TupleShift] removes, for every tuple, with optional elements or
    readonly; [TupleLast] reads what [TuplePush] appends; and a tuple whose
    first element is required is its head put in front of its tail.  All
    results are writable tuples. *)
Theorem TupleUnshift_head_shift (ro : bool) (es : list (ty * bool)) (x : ty) :
  TupleHead (TupleUnshift (TTuple ro es) x) = x
  /\ TupleShift (TupleUnshift (TTuple ro es) x) = TTuple false es
  /\ TupleLast (TuplePush (TTuple ro es) x) = x
  /\ TupleUnshift (TupleTail (TTuple ro ((x, false) :: es)))
                  (TupleHead (TTuple ro ((x, false) :: es)))
     = TTuple false ((x, false) :: es).
Proof.
  unfold TupleHead, TupleShift, TupleTail, TupleUnshift, cons_spread,
    TupleLast, TuplePush, distribute.
  repeat split. now rewrite rev_unit.
Qed.

(** X3: on the empty tuple, on an array and on a tuple that starts with an
    optional element the accessors give their fallback: [never] for
    [TupleHead] and [TupleLast], the empty tuple for [TupleTail],
    [TupleShift], [TupleInit] and [TuplePop], and the accumulator (the
    empty tuple) for [TupleReverse]. *)
Theorem Tuple_fallbacks (ro : bool) (e t : ty) (es : list (ty * bool)) :
  let empty := TTuple ro [] in
  let array := TArray ro e in
  let opt := TTuple ro ((t, true) :: es) in
  (TupleHead empty = TNever /\ TupleHead array = TNever /\ TupleHead opt = TNever)
  /\ (TupleLast empty = TNever /\ TupleLast array = TNever)
  /\ (TupleTail empty = TTuple false [] /\ TupleTail array = TTuple false []
      /\ TupleShift opt = TTuple false [])
  /\ (TuplePop empty = TTuple false [] /\ TupleInit array = TTuple false [])
  /\ (TupleReverse empty = TTuple false [] /\ TupleReverse array = TTuple false []
      /\ TupleReverse opt = TTuple false []).
Proof. cbv zeta. repeat split. Qed.

(** ** Tuples: length and concatenation *)

Section TupleLengths.

Variable W : wrapper -> list prop.
Variable A : bool -> ty -> list prop.

Lemma index_name_not_length (i : nat) : String.eqb "length" (index_name i) = false.
Proof. unfold index_name. destruct (Nat.to_uint i); reflexivity. Qed.

Lemma index_props_no_length (ro : bool) (es : list (ty * bool)) (i : nat) :
  find_prop "length" (index_props ro i es) = None.
Proof.
  revert i. induction es as [| [t o] es IH]; intros i; [reflexivity |].
  cbn [index_props find_prop]. rewrite index_name_not_length. apply IH.
Qed.

(** What [T["length"]] reads from a tuple. *)
Lemma tuple_length_access (ro : bool) (es : list (ty * bool)) :
  index_access W A (TTuple ro es) (TStr "length")
  = union_of [union_of (tuple_lengths es)].
Proof.
  unfold index_access. cbn [union_members TStr map index_one lookup_prop].
  unfold tuple_props. rewrite find_prop_app, index_props_no_length.
  reflexivity.
Qed.

Lemma required_count (es : list (ty * bool)) :
  all_required es = true ->
  length (filter (fun e : ty * bool => negb (snd e)) es) = length es.
Proof.
  unfold all_required.
  induction es as [| e es IH]; cbn; [reflexivity |].
  intros H. apply andb_true_iff in H as [-> H]. cbn. now rewrite IH.
Qed.

Lemma TupleLength_required (ro : bool) (es : list (ty * bool)) :
  all_required es = true ->
  TupleLength W A (TTuple ro es) = TLit (LNum (Z.of_nat (length es))).
Proof.
  intros H. unfold TupleLength. rewrite tuple_length_access.
  unfold tuple_lengths. rewrite (required_count es H), Nat.sub_diag.
  cbn [seq map]. rewrite Nat.add_0_r. reflexivity.
Qed.

Lemma normalize_required (es : list (ty * bool)) :
  all_required es = true -> normalize_optional es = es.
Proof.
  unfold all_required.
  induction es as [| [t o] es IH]; cbn; [reflexivity |].
  intros H. apply andb_true_iff in H as [Ho H].
  destruct o; [discriminate |]. now rewrite (IH H).
Qed.

Lemma TupleConcat_required (ro ro' : bool) (es es' : list (ty * bool)) :
  all_required es = true -> all_required es' = true ->
  TupleConcat (TTuple ro es) (TTuple ro' es') = TTuple false (es ++ es').
Proof.
  intros H H'. unfold TupleConcat, distribute.
  rewrite normalize_required; [reflexivity |].
  now rewrite all_required_app, H, H'.
Qed.

(** X4: the arity of a fixed tuple is tracked exactly: [TupleLength] is the
    literal number of elements, [TuplePush] and [TupleUnshift] add one, and
    [TupleConcat] adds the lengths. *)
Theorem TupleLength_arithmetic (ro ro' : bool) (es es' : list (ty * bool)) (x : ty) :
  all_required es = true -> all_required es' = true ->
  let n := Z.of_nat (length es) in
  let m := Z.of_nat (length es') in
  TupleLength W A (TTuple ro es) = TLit (LNum n)
  /\ TupleLength W A (TuplePush (TTuple ro es) x) = TLit (LNum (n + 1))
  /\ TupleLength W A (TupleUnshift (TTuple ro es) x) = TLit (LNum (n + 1))
  /\ TupleLength W A (TupleConcat (TTuple ro es) (TTuple ro' es')) = TLit (LNum (n + m)).
Proof.
  intros H H'. cbv zeta.
  split; [now apply TupleLength_required |].
  split; [| split].
  - unfold TuplePush, distribute.
    rewrite (required_elems_fixed es H), TupleLength_required.
    + rewrite length_app. cbn [length]. do 2 f_equal. lia.
    + rewrite all_required_app, H. reflexivity.
  - unfold TupleUnshift, cons_spread, distribute.
    rewrite TupleLength_required.
    + cbn [length]. do 2 f_equal. lia.
    + cbn. exact H.
  - rewrite (TupleConcat_required ro ro' es es' H H'), TupleLength_required.
    + rewrite length_app. do 2 f_equal. lia.
    + now rewrite all_required_app, H, H'.
Qed.

End TupleLengths.

(** X5: on fixed tuples [TupleConcat] is associative, has the empty tuple
    as unit up to writability, and [TupleReverse] of a concatenation is the
    concatenation of the reversals in the opposite order. *)
Theorem TupleConcat_laws (r1 r2 r3 : bool) (a b c : list (ty * bool)) :
  all_required a = true -> all_required b = true -> all_required c = true ->
  TupleConcat (TupleConcat (TTuple r1 a) (TTuple r2 b)) (TTuple r3 c)
  = TupleConcat (TTuple r1 a) (TupleConcat (TTuple r2 b) (TTuple r3 c))
  /\ TupleConcat (TTuple r1 a) (TTuple r2 []) = TTuple false a
  /\ TupleConcat (TTuple r2 []) (TTuple r1 a) = TTuple false a
  /\ TupleReverse (TupleConcat (TTuple r1 a) (TTuple r2 b))
     = TupleConcat (TupleReverse (TTuple r2 b)) (TupleReverse (TTuple r1 a)).
Proof.
  intros Ha Hb Hc.
  assert (Hab : all_required (a ++ b) = true) by now rewrite all_required_app, Ha, Hb.
  assert (Hbc : all_required (b ++ c) = true) by now rewrite all_required_app, Hb, Hc.
  repeat split.
  - rewrite (TupleConcat_required r1 r2 a b Ha Hb),
      (TupleConcat_required r2 r3 b c Hb Hc),
      (TupleConcat_required false r3 (a ++ b) c Hab Hc),
      (TupleConcat_required r1 false a (b ++ c) Ha Hbc).
    now rewrite app_assoc.
  - rewrite (TupleConcat_required r1 r2 a [] Ha eq_refl). now rewrite app_nil_r.
  - now rewrite (TupleConcat_required r2 r1 [] a eq_refl Ha).
  - rewrite (TupleConcat_required r1 r2 a b Ha Hb).
    rewrite !TupleReverse_required by assumption.
    rewrite TupleConcat_required by now apply all_required_rev.
    now rewrite rev_app_distr.
Qed.

(** The arities and the laws at [[string, number]] and [[boolean]]. *)
Lemma TupleLength_arithmetic_witness :
  TupleLength es_wrapper_members es_array_members
    (TupleConcat (TTuple false [(TString, false); (TNumber, false)])
                 (TTuple false [(TBoolean, false)]))
  = TLit (LNum 3).
Proof.
  apply (TupleLength_arithmetic es_wrapper_members es_array_members false false
           [(TString, false); (TNumber, false)] [(TBoolean, false)] TNever);
    reflexivity.
Defined.

Lemma TupleConcat_laws_witness :
  TupleReverse (TupleConcat (TTuple false [(TString, false); (TNumber, false)])
                            (TTuple false [(TBoolean, false)]))
  = TupleConcat (TupleReverse (TTuple false [(TBoolean, false)]))
                (TupleReverse (TTuple false [(TString, false); (TNumber, false)])).
Proof.
  apply (TupleConcat_laws false false false
           [(TString, false); (TNumber, false)] [(TBoolean, false)] []);
    reflexivity.
Defined.

(** ** Tuples of string literals: search and filter *)

Section LiteralTuples.

Variable W : wrapper -> list prop.
Variable A : bool -> ty -> list prop.

(** A conditional type between two string literals compares the texts. *)
Lemma conditional_literals (h k : string) (x y : ty) :
  conditional W A (TStr h) (TStr k) x y = if String.eqb h k then x else y.
Proof.
  unfold conditional, assignable, relation_depth.
  change (related W A 100) with (related_step W A (related W A 99)).
  reflexivity.
Qed.

Lemma conditional_literal_string (h : string) (x y : ty) :
  conditional W A (TStr h) TString x y = x
  /\ conditional W A (TStr h) TNumber x y = y.
Proof.
  unfold conditional, assignable, relation_depth.
  change (related W A 100) with (related_step W A (related W A 99)).
  split; reflexivity.
Qed.

Lemma all_required_repeat (t : ty) (i : nat) :
  all_required (repeat (t, false) i) = true.
Proof. induction i as [| i IH]; [reflexivity | exact IH]. Qed.

Lemma TuplePush_counter (i : nat) :
  TuplePush (TTuple false (repeat (TLit (LNum 1), false) i)) (TLit (LNum 1))
  = TTuple false (repeat (TLit (LNum 1), false) (S i)).
Proof.
  unfold TuplePush, distribute.
  rewrite (required_elems_fixed _ (all_required_repeat _ i)).
  now rewrite <- repeat_cons.
Qed.

Lemma TupleIndex_elems_literals (k : string) (ks : list string) (i : nat) :
  TupleIndex_elems W A (map (fun s => (TStr s, false)) ks) (TStr k)
    (TTuple false (repeat (TLit (LNum 1), false) i))
  = TLit (LNum (first_index k ks (Z.of_nat i))).
Proof.
  revert i. induction ks as [| h ks IH]; intros i; [reflexivity |].
  cbn [map TupleIndex_elems first_index]. unfold distribute, TStr at 1.
  fold (TStr h). rewrite conditional_literals.
  destruct (String.eqb h k).
  - fold (TupleLength W A (TTuple false (repeat (TLit (LNum 1), false) i))).
    rewrite (TupleLength_required W A false _ (all_required_repeat _ i)).
    now rewrite repeat_length.
  - rewrite TuplePush_counter, IH.
    replace (Z.of_nat (S i)) with (Z.of_nat i + 1)%Z by lia. reflexivity.
Qed.

(** X6: on a tuple of string literals [TupleIndex] is the position of the
    first element equal to the literal searched, counted from 0, and [-1]
    when there is none. *)
Theorem TupleIndex_literals (ro : bool) (ks : list string) (k : string) :
  TupleIndex W A (literal_tuple ro ks) (TStr k) = TLit (LNum (first_index k ks 0)).
Proof.
  unfold TupleIndex, literal_tuple, distribute.
  apply (TupleIndex_elems_literals k ks 0).
Qed.

Lemma TupleFilter_elems_literals (P : string -> bool) (C : ty) (ks : list string) :
  (forall h x y, conditional W A (TStr h) C x y = if P h then x else y) ->
  TupleFilter_elems W A (map (fun s => (TStr s, false)) ks) C
  = literal_tuple false (filter P ks).
Proof.
  intros HC. induction ks as [| h ks IH]; [reflexivity |].
  cbn [map TupleFilter_elems filter]. unfold distribute, TStr at 1.
  fold (TStr h). rewrite HC, IH.
  destruct (P h); reflexivity.
Qed.

(** X7: on a tuple of string literals [TupleFilter] keeps, in order, the
    elements equal to a literal condition; with the condition [string] it
    keeps every element and with [number] none. *)
Theorem TupleFilter_literals (ro : bool) (ks : list string) (k : string) :
  TupleFilter W A (literal_tuple ro ks) (TStr k)
  = literal_tuple false (filter (fun h => String.eqb h k) ks)
  /\ TupleFilter W A (literal_tuple ro ks) TString = literal_tuple false ks
  /\ TupleFilter W A (literal_tuple ro ks) TNumber = TTuple false [].
Proof.
  unfold TupleFilter, distribute. cbn [literal_tuple].
  repeat split.
  - apply TupleFilter_elems_literals. intros. apply conditional_literals.
  - rewrite (TupleFilter_elems_literals (fun _ => true)).
    + f_equal. induction ks as [| h l IH]; cbn; [reflexivity | now rewrite IH].
    + intros. apply conditional_literal_string.
  - rewrite (TupleFilter_elems_literals (fun _ => false)).
    + f_equal. induction ks as [| h l IH]; cbn; [reflexivity | exact IH].
    + intros. apply conditional_literal_string.
Qed.

End LiteralTuples.

Section LiteralMembership.

Variable W : wrapper -> list prop.
Variable A : bool -> ty -> list prop.

Lemma members_of_names (l : list string) :
  flat_map union_members [pack_union (map TStr l)] = map TStr l.
Proof.
  destruct l as [| a [| b l]]; [reflexivity | reflexivity |].
  cbn [flat_map pack_union map union_members]. apply app_nil_r.
Qed.

Lemma names_union_not_top (l : list string) :
  is_top (pack_union (map TStr l)) = false.
Proof. destruct l as [| a [| b l]]; reflexivity. Qed.

(** The union of the elements of a tuple of string literals. *)
Lemma TupleToUnion_literals (ro : bool) (ks : list string) :
  TupleToUnion W A (literal_tuple ro ks)
  = pack_union (map TStr (dedup_names [] (dedup_names [] ks))).
Proof.
  unfold TupleToUnion, index_access, literal_tuple.
  cbn [union_members TNumber map index_one number_index].
  rewrite map_map. cbn [fst].
  rewrite union_of_names.
  rewrite (union_of_flat _ (map TStr (dedup_names [] ks))).
  - apply union_of_names.
  - rewrite members_of_names. symmetry. apply flat_names.
Qed.

Lemma first_index_bounds (k : string) (ks : list string) (i : Z) :
  (0 <= i)%Z ->
  (has_name k ks = false <-> first_index k ks i = (-1)%Z)
  /\ (-1 <= first_index k ks i)%Z
  /\ (has_name k ks = true -> (i <= first_index k ks i)%Z).
Proof.
  unfold has_name. revert i. induction ks as [| h l IH]; intros i Hi.
  - cbn. repeat split; intros; try lia; discriminate.
  - cbn [existsb first_index]. rewrite (String.eqb_sym k h).
    destruct (String.eqb h k); cbn [orb].
    + repeat split; intros; try lia; discriminate.
    + destruct (IH (i + 1)%Z ltac:(lia)) as (I1 & I2 & I3).
      repeat split; try apply I1; try lia.
      intros Hn. specialize (I3 Hn). lia.
Qed.

(** X8: on a tuple of string literals [TupleIncludes] tells whether the
    literal is one of the elements, and it is [false] exactly when
    [TupleIndex] is [-1]. *)
Theorem TupleIncludes_literals (ro : bool) (ks : list string) (k : string) :
  TupleIncludes W A (literal_tuple ro ks) (TStr k)
  = (if has_name k ks then TTrue else TFalse)
  /\ (TupleIncludes W A (literal_tuple ro ks) (TStr k) = TFalse
      <-> TupleIndex W A (literal_tuple ro ks) (TStr k) = TLit (LNum (-1))).
Proof.
  assert (E : TupleIncludes W A (literal_tuple ro ks) (TStr k)
              = if has_name k ks then TTrue else TFalse).
  { unfold TupleIncludes, distribute. cbn iota.
    fold (TupleToUnion W A (literal_tuple ro ks)).
    rewrite TupleToUnion_literals. unfold conditional.
    rewrite names_union_not_top. cbn [is_any TStr].
    unfold assignable, relation_depth. fold (TStr k).
    rewrite related_name_names, !has_name_dedup. cbn [has_name existsb negb].
    rewrite !andb_true_r. reflexivity. }
  split; [exact E |].
  rewrite E. unfold TupleIndex, literal_tuple, distribute.
  pose proof (TupleIndex_elems_literals W A k ks 0) as E0.
  cbn [repeat Z.of_nat] in E0. rewrite E0. clear E0.
  destruct (first_index_bounds k ks 0%Z ltac:(lia)) as ([F1 F2] & _).
  destruct (has_name k ks).
  - split; [discriminate |]. intros H.
    assert (first_index k ks 0 = (-1)%Z) by congruence.
    specialize (F2 H0). discriminate.
  - split; [| reflexivity]. intros _. now rewrite F1.
Qed.

End LiteralMembership.

(** ** The guards *)

Section Guards.

Variable W : wrapper -> list prop.
Variable A : bool -> ty -> list prop.

Lemma related_to_never (n : nat) (T : ty) :
  is_union T = false -> related W A (S n) T TNever = is_never T.
Proof.
  intros H. cbn [related]. unfold related_step.
  destruct T; try discriminate; reflexivity.
Qed.

(** X9: [IsNever] is exact on every type that is not written as a union:
    [true] for [never] and [false] for everything else, [any] included. *)
Theorem IsNever_exact (T : ty) :
  is_union T = false ->
  IsNever W A T = if is_never T then TTrue else TFalse.
Proof.
  intros H. unfold IsNever, conditional.
  change (is_top (boxed TNever)) with false.
  change (is_any (boxed T)) with false. cbv iota.
  rewrite assignable_boxed, (related_to_never 98 T H). reflexivity.
Qed.







(** The literal [1] met with a type that is not [any]: [0] does not extend it. *)
Lemma one_and (T : ty) :
  is_union T = false -> is_inter T = false -> is_any T = false ->
  assignable W A (TLit (LNum 0)) (intersect2 (TLit (LNum 1)) T) = false
  /\ is_top (intersect2 (TLit (LNum 1)) T) = false.
Proof.
  intros Hu Hi Ha.
  destruct T as [ | | | p | l | fs | ro es | ro e | ps r | ms | ms ];
    try discriminate; try (split; reflexivity).
  - destruct p; split; reflexivity.
  - destruct l as [s | z | b]; try (split; reflexivity).
    change (intersect2 (TLit (LNum 1)) (TLit (LNum z)))
      with (intersect_atoms (TLit (LNum 1)) (TLit (LNum z))).
    unfold intersect_atoms, dedup.
    cbn [is_never is_any orb inter_members app dedup_from mem_ty existsb ty_eqb lit_eqb].
    destruct (Z.eqb z 1) eqn:E.
    + split; reflexivity.
    + cbn [orb any_disjoint existsb disjoint_pair lit_eqb].
      rewrite Z.eqb_sym, E. split; reflexivity.
Qed.

(** X12: [IsAny] is exact on every type that is not written as a union or
    an intersection: [true] for [any] and [false] for everything else. *)
Theorem IsAny_exact (T : ty) :
  is_union T = false -> is_inter T = false ->
  IsAny W A T = if is_any T then TTrue else TFalse.
Proof.
  intros Hu Hi. destruct (is_any T) eqn:Ha.
  - destruct T; try discriminate. reflexivity.
  - unfold IsAny, conditional.
    destruct (one_and T Hu Hi Ha) as [-> ->]. reflexivity.
Qed.

(** X11: [IsLiteral] does not tell a literal from its primitive: it is
    [true] for [string], [number] and [bigint] themselves as for every
    string and number literal, and [false] for [boolean], [true] and
    [false]. *)
Theorem IsLiteral_primitives (s : string) (z : Z) (b : bool) :
  IsLiteral W A TString = TTrue
  /\ IsLiteral W A TNumber = TTrue
  /\ IsLiteral W A (TPrim PBigint) = TTrue
  /\ IsLiteral W A (TStr s) = TTrue
  /\ IsLiteral W A (TLit (LNum z)) = TTrue
  /\ IsLiteral W A (TLit (LBool b)) = TFalse
  /\ IsLiteral W A TBoolean = TFalse.
Proof.
  unfold IsLiteral, distribute, conditional, assignable, relation_depth.
  change (related W A 100) with (related_step W A (related W A 99)).
  repeat split; try reflexivity.
  destruct b; reflexivity.
Qed.

End Guards.

(** ** Unions of string literals *)

Section NameUnions.

Variable W : wrapper -> list prop.
Variable A : bool -> ty -> list prop.

(** Distributing a selection over a union of names keeps the selected
    names. *)
Lemma distribute_select (P : string -> bool) (f : ty -> ty) (l : list string) :
  NoDup l ->
  (forall a, f (TStr a) = if P a then TStr a else TNever) ->
  distribute f (pack_union (map TStr l)) = pack_union (map TStr (filter P l)).
Proof.
  intros Hn Hf.
  assert (Eg : distribute f (pack_union (map TStr l))
               = union_of (map (fun a => if P a then TStr a else TNever) l)).
  { destruct l as [| a [| b l]].
    - reflexivity.
    - cbn [map pack_union]. unfold distribute. cbn iota. fold (TStr a).
      rewrite Hf. destruct (P a); reflexivity.
    - change (pack_union (map TStr (a :: b :: l))) with (TUnion (map TStr (a :: b :: l))).
      unfold distribute. rewrite map_map. f_equal.
      apply map_ext. intros x. apply Hf. }
  rewrite Eg.
  rewrite (union_of_flat _ (map TStr (filter P l))).
  - rewrite union_of_names, dedup_names_nodup; [reflexivity | | intros ? ? []].
    now apply NoDup_filter.
  - rewrite flat_names. clear Hn Eg.
    induction l as [| a l IH]; [reflexivity |].
    cbn [map flat_map filter].
    destruct (P a); simpl; now rewrite IH.
Qed.

Lemma dedup_constant (k : string) (l : list string) :
  (forall a, In a l -> a = k) ->
  dedup_names [] l = match l with [] => [] | _ => [k] end.
Proof.
  intros H. destruct l as [| a l]; [reflexivity |].
  assert (a = k) by (apply H; now left). subst a.
  cbn [dedup_names existsb]. f_equal.
  assert (G : forall l', (forall a, In a l' -> a = k) -> dedup_names [k] l' = []).
  { induction l' as [| b l' IH]; intros Hl; [reflexivity |].
    assert (b = k) by (apply Hl; now left). subst b.
    cbn [dedup_names existsb]. rewrite String.eqb_refl. cbn [orb].
    apply IH. intros a Ha. apply Hl. now right. }
  apply G. intros a Ha. apply H. now right.
Qed.

(** Distributing a test with one possible answer [t] over a union of names
    gives [t] when some name passes the test, and [never] otherwise. *)
Lemma distribute_some (Q : string -> bool) (t : string) (f : ty -> ty)
    (l : list string) :
  (forall b, f (TStr b) = if Q b then TStr t else TNever) ->
  distribute f (pack_union (map TStr l)) = if existsb Q l then TStr t else TNever.
Proof.
  intros Hf.
  assert (Eg : distribute f (pack_union (map TStr l))
               = union_of (map (fun b => if Q b then TStr t else TNever) l)).
  { destruct l as [| a [| b l]].
    - reflexivity.
    - cbn [map pack_union]. unfold distribute. cbn iota. fold (TStr a).
      rewrite Hf. destruct (Q a); reflexivity.
    - change (pack_union (map TStr (a :: b :: l))) with (TUnion (map TStr (a :: b :: l))).
      unfold distribute. rewrite map_map. f_equal.
      apply map_ext. intros x. apply Hf. }
  rewrite Eg.
  rewrite (union_of_flat _ (map TStr (map (fun _ => t) (filter Q l)))).
  - rewrite union_of_names, (dedup_constant t).
    + clear Eg. induction l as [| a l IH]; [reflexivity |].
      cbn [filter existsb]. destruct (Q a); [reflexivity | exact IH].
    + intros a Ha. apply in_map_iff in Ha as (x & <- & _). reflexivity.
  - rewrite flat_names. clear Eg.
    induction l as [| a l IH]; [reflexivity |].
    cbn [map flat_map filter].
    destruct (Q a); simpl; now rewrite IH.
Qed.

End NameUnions.

Section UnionAlgebra.

Variable W : wrapper -> list prop.
Variable A : bool -> ty -> list prop.

Lemma has_name_flip (a : string) (l : list string) :
  existsb (fun b => String.eqb b a) l = has_name a l.
Proof.
  unfold has_name. induction l as [| b l IH]; [reflexivity |].
  cbn [existsb]. now rewrite IH, String.eqb_sym.
Qed.

(** X13: on unions of string literals [UnionOverlap<A, B>] is the
    intersection: the members of [A] that are members of [B], in the order
    of [A]. *)
Theorem UnionOverlap_literals (la lb : list string) :
  NoDup la ->
  UnionOverlap W A (literal_union la) (literal_union lb)
  = literal_union (filter (fun a => has_name a lb) la).
Proof.
  intros Hn. unfold UnionOverlap, literal_union.
  apply distribute_select; [exact Hn |].
  intros a.
  change (conditional W A (TStr a) TAny
            (distribute (fun Y => conditional W A Y (TStr a) (TStr a) TNever)
               (pack_union (map TStr lb))) TNever)
    with (distribute (fun Y => conditional W A Y (TStr a) (TStr a) TNever)
            (pack_union (map TStr lb))).
  rewrite (distribute_some (fun b => String.eqb b a) a).
  - now rewrite has_name_flip.
  - intros b. apply conditional_literals.
Qed.

Lemma UnionDiff_formula (la lb : list string) :
  NoDup la ->
  UnionDiff W A (literal_union la) (literal_union lb)
  = literal_union
      (filter (fun a => existsb (fun b => negb (String.eqb b a)) lb) la).
Proof.
  intros Hn. unfold UnionDiff, literal_union.
  apply distribute_select; [exact Hn |].
  intros a.
  change (conditional W A (TStr a) TAny
            (distribute (fun Y => conditional W A Y (TStr a) TNever (TStr a))
               (pack_union (map TStr lb))) TNever)
    with (distribute (fun Y => conditional W A Y (TStr a) TNever (TStr a))
            (pack_union (map TStr lb))).
  apply (distribute_some (fun b => negb (String.eqb b a)) a).
  intros b. rewrite conditional_literals. now destruct (String.eqb b a).
Qed.

(** X14: on unions of string literals [UnionDiff<A, B>] keeps the members
    of [A] that differ from some member of [B].  With a single member in
    [B] this removes that member from [A]; as soon as [B] has two different
    members nothing is removed and the result is [A]; and with [B = never]
    the result is [never]. *)
Theorem UnionDiff_literals (la lb : list string) :
  NoDup la ->
  (forall b, lb = [b] ->
     UnionDiff W A (literal_union la) (literal_union lb)
     = literal_union (filter (fun a => negb (String.eqb b a)) la))
  /\ (forall b1 b2, In b1 lb -> In b2 lb -> b1 <> b2 ->
        UnionDiff W A (literal_union la) (literal_union lb) = literal_union la)
  /\ (lb = [] ->
        UnionDiff W A (literal_union la) (literal_union lb) = TNever).
Proof.
  intros Hn. rewrite (UnionDiff_formula la lb Hn). repeat split.
  - intros b ->. f_equal. apply filter_ext. intros a.
    cbn [existsb]. now rewrite orb_false_r.
  - intros b1 b2 H1 H2 Hd. f_equal.
    rewrite <- (filter_ext (fun _ => true)).
    + clear Hn. induction la as [| a l IH]; cbn; [reflexivity | now rewrite IH].
    + intros a. symmetry. apply existsb_exists.
      destruct (String.eqb b1 a) eqn:E1.
      * exists b2. split; [exact H2 |].
        apply String.eqb_eq in E1. subst a.
        apply negb_true_iff, String.eqb_neq. congruence.
      * exists b1. split; [exact H1 | now rewrite E1].
  - intros ->. cbn [existsb]. clear Hn.
    induction la as [| a l IH]; [reflexivity | exact IH].
Qed.

End UnionAlgebra.

(** [UnionOverlap] and [UnionDiff] at the unions of the documentation. *)
Lemma UnionOverlap_literals_witness :
  UnionOverlap es_wrapper_members es_array_members
    (literal_union ["a"; "b"; "c"]) (literal_union ["b"; "c"; "d"])
  = literal_union ["b"; "c"].
Proof.
  apply (UnionOverlap_literals es_wrapper_members es_array_members
           ["a"; "b"; "c"] ["b"; "c"; "d"]).
  repeat constructor; simpl; intuition discriminate.
Defined.

Lemma UnionDiff_literals_witness :
  UnionDiff es_wrapper_members es_array_members
    (literal_union ["a"; "b"; "c"]) (literal_union ["b"; "c"])
  = literal_union ["a"; "b"; "c"].
Proof.
  refine (proj1 (proj2 (UnionDiff_literals es_wrapper_members es_array_members
           ["a"; "b"; "c"] ["b"; "c"] _)) "b" "c" _ _ _).
  - repeat constructor; simpl; intuition discriminate.
  - now left.
  - right. now left.
  - discriminate.
Defined.

(** ** Record algebra: [Diff], [Intersect], [Merge] *)

Section RecordAlgebra.

Variable W : wrapper -> list prop.
Variable A : bool -> ty -> list prop.

Lemma keyof_record_nodup (fs : list prop) :
  NoDup (prop_names fs) ->
  keyof W A (TRecord fs) = pack_union (map TStr (prop_names fs)).
Proof.
  intros Hn. rewrite keyof_record, dedup_names_nodup; [reflexivity | exact Hn |].
  intros ? ? [].
Qed.

Lemma Pick_filtered (fs : list prop) (P : string -> bool) :
  NoDup (prop_names fs) ->
  Pick W A (TRecord fs) (pack_union (map TStr (filter P (prop_names fs))))
  = TRecord (filter (fun f : prop => P (fst f)) fs).
Proof.
  intros Hn. unfold Pick. rewrite string_keys_names. f_equal.
  apply (Pick_names W A fs fs P). now apply find_prop_in.
Qed.

Lemma Diff_record (a b : list prop) :
  NoDup (prop_names a) ->
  Diff W A (TRecord a) (TRecord b) = TRecord (fields_out (prop_names b) a).
Proof.
  intros Hn. unfold Diff, Omit, Exclude.
  rewrite (keyof_record_nodup a Hn).
  rewrite (distribute_select (fun x => negb (has_name x (prop_names b)))).
  - now apply Pick_filtered.
  - exact Hn.
  - intros x. rewrite conditional_keyof_record.
    now destruct (has_name x (prop_names b)).
Qed.

Lemma Intersect_record (a b : list prop) :
  NoDup (prop_names a) ->
  Intersect W A (TRecord a) (TRecord b) = TRecord (fields_in (prop_names b) a).
Proof.
  intros Hn. unfold Intersect, Extract.
  rewrite (keyof_record_nodup a Hn).
  rewrite (distribute_select (fun x => has_name x (prop_names b))).
  - now apply Pick_filtered.
  - exact Hn.
  - intros x. now rewrite conditional_keyof_record.
Qed.

Lemma has_own_name (f : prop) (fs : list prop) :
  In f fs -> has_name (fst f) (prop_names fs) = true.
Proof.
  intros H. unfold has_name, prop_names. apply existsb_exists.
  exists (fst f). split; [now apply in_map | apply String.eqb_refl].
Qed.

(** X15: [Diff<A, B>] keeps the fields of [A] whose name [B] does not
    have and [Intersect<A, B>] those whose name [B] has, each with the
    triple it has in [A] (only names are compared): together they split the
    fields of [A], [Diff<A, A>] is empty and [Intersect<A, A>] is [A]. *)
Theorem Diff_Intersect_partition (a b : list prop) :
  NoDup (prop_names a) ->
  Diff W A (TRecord a) (TRecord b) = TRecord (fields_out (prop_names b) a)
  /\ Intersect W A (TRecord a) (TRecord b) = TRecord (fields_in (prop_names b) a)
  /\ (forall f, In f a <->
        (In f (fields_out (prop_names b) a) /\ ~ In f (fields_in (prop_names b) a))
        \/ (In f (fields_in (prop_names b) a) /\ ~ In f (fields_out (prop_names b) a)))
  /\ Diff W A (TRecord a) (TRecord a) = TEmpty
  /\ Intersect W A (TRecord a) (TRecord a) = TRecord a.
Proof.
  intros Hn.
  split; [now apply Diff_record |].
  split; [now apply Intersect_record |].
  split; [| split].
  - intros f. unfold fields_out, fields_in. rewrite !filter_In.
    destruct (has_name (fst f) (prop_names b)); cbn [negb]; intuition discriminate.
  - rewrite (Diff_record a a Hn). unfold fields_out, TEmpty. f_equal.
    rewrite <- (filter_ext_in (fun _ => false)).
    + clear Hn. induction a as [| f l IH]; [reflexivity | exact IH].
    + intros f Hf. now rewrite (has_own_name f a Hf).
  - rewrite (Intersect_record a a Hn). unfold fields_in. f_equal.
    rewrite <- (filter_ext_in (fun _ => true)).
    + clear Hn. induction a as [| f l IH]; cbn; [reflexivity | now rewrite IH].
    + intros f Hf. now rewrite (has_own_name f a Hf).
Qed.

Lemma disjoint_no_conflict (X b : list prop) :
  (forall f g, In f X -> In g b -> String.eqb (fst f) (fst g) = false) ->
  props_conflict X b = false.
Proof.
  unfold props_conflict. intros H.
  destruct (existsb _ X) eqn:E; [| reflexivity].
  apply existsb_exists in E as (f & Hf & E).
  apply existsb_exists in E as (g & Hg & E).
  now rewrite (H f g Hf Hg) in E.
Qed.

Lemma disjoint_differ (X b : list prop) :
  b <> [] ->
  (forall f g, In f X -> In g b -> String.eqb (fst f) (fst g) = false) ->
  ty_eqb (TRecord b) (TRecord X) = false.
Proof.
  intros Hb H.
  destruct b as [| [k [[t o] r]] b]; [congruence |].
  destruct X as [| [k' [[t' o'] r']] X]; [reflexivity |].
  pose proof (H (k', (t', o', r')) (k, (t, o, r)) (or_introl eq_refl)
                (or_introl eq_refl)) as E.
  cbn in E |- *. rewrite String.eqb_sym, E. reflexivity.
Qed.

(** X16: [Merge<A, B>] is right-biased and not deep: it is the intersection
    of [A] without every field whose name [B] has and of [B] itself, so a
    name of [B] is found in the [B] part only, with [B]'s triple. *)
Theorem Merge_right_biased (a b : list prop) :
  NoDup (prop_names a) -> b <> [] ->
  Merge W A (TRecord a) (TRecord b)
  = TInter [TRecord (fields_out (prop_names b) a); TRecord b]
  /\ forall k, has_name k (prop_names b) = true ->
       find_prop k (fields_out (prop_names b) a) = None.
Proof.
  intros Hn Hb.
  assert (Hd : forall f g, In f (fields_out (prop_names b) a) -> In g b ->
                 String.eqb (fst f) (fst g) = false).
  { intros f g Hf Hg. unfold fields_out in Hf.
    apply filter_In in Hf as [_ Hf]. apply negb_true_iff in Hf.
    destruct (String.eqb (fst f) (fst g)) eqn:E; [| reflexivity].
    apply String.eqb_eq in E. rewrite E, (has_own_name g b Hg) in Hf.
    discriminate. }
  split.
  - unfold Merge. fold (Diff W A (TRecord a) (TRecord b)).
    rewrite (Diff_record a b Hn).
    apply intersect2_records.
    + now apply disjoint_differ.
    + now apply disjoint_no_conflict.
  - intros k Hk. apply absent_find.
    destruct (has_name k (prop_names (fields_out (prop_names b) a))) eqn:E;
      [| reflexivity].
    unfold has_name, prop_names in E.
    apply existsb_exists in E as (x & Hx & E).
    apply in_map_iff in Hx as (f & <- & Hf).
    apply String.eqb_eq in E. subst k.
    unfold fields_out in Hf. apply filter_In in Hf as [_ Hf].
    fold (prop_names b) in Hf. rewrite Hk in Hf. discriminate.
Qed.

End RecordAlgebra.

(** [Merge], [Diff] and [Intersect] at the records of the documentation,
    with [age] readonly in [A]. *)
Lemma Merge_right_biased_witness :
  Merge es_wrapper_members es_array_members
    (TRecord [("name", (TString, false, false)); ("age", (TNumber, false, true))])
    (TRecord [("age", (TString, false, false)); ("email", (TString, false, false))])
  = TInter [TRecord [("name", (TString, false, false))];
            TRecord [("age", (TString, false, false));
                     ("email", (TString, false, false))]].
Proof.
  apply (Merge_right_biased es_wrapper_members es_array_members
           [("name", (TString, false, false)); ("age", (TNumber, false, true))]
           [("age", (TString, false, false)); ("email", (TString, false, false))]).
  - repeat constructor; simpl; intuition discriminate.
  - discriminate.
Defined.

Lemma Diff_Intersect_partition_witness :
  Intersect es_wrapper_members es_array_members
    (TRecord [("name", (TString, false, false)); ("age", (TNumber, false, true))])
    (TRecord [("age", (TString, false, false)); ("email", (TString, false, false))])
  = TRecord [("age", (TNumber, false, true))].
Proof.
  refine (proj1 (proj2 (Diff_Intersect_partition es_wrapper_members es_array_members
           [("name", (TString, false, false)); ("age", (TNumber, false, true))]
           [("age", (TString, false, false)); ("email", (TString, false, false))] _))).
  repeat constructor; simpl; intuition discriminate.
Defined.

(** ** Path values and query parameters *)

Section PathValue.

Variable W : wrapper -> list prop.
Variable A : bool -> ty -> list prop.

Lemma ObjectPathValue_from_DeepValue_from (p : string) :
  forall T key, ObjectPathValue_from W A T key p = DeepValue_from W A T key p.
Proof.
  induction p as [| c p IH]; intros T key; [reflexivity |].
  destruct c as [[|] [|] [|] [|] [|] [|] [|] [|]];
    cbn [ObjectPathValue_from DeepValue_from]; rewrite ?IH; reflexivity.
Qed.

(** X17: the two path-value aliases, [ObjectPathValue] of the object file
    and [DeepValue] of the deep file, agree on every type and every path
    (unlike the two path enumerations). *)
Theorem ObjectPathValue_is_DeepValue (T : ty) (Path : string) :
  ObjectPathValue W A T Path = DeepValue W A T Path.
Proof. apply ObjectPathValue_from_DeepValue_from. Qed.

Lemma conditional_same (c e x : ty) : conditional W A c e x x = x \/ is_any c = true.
Proof.
  unfold conditional. destruct (is_top e); [now left |].
  destruct (is_any c); [now right | left].
  now destruct (assignable W A c e).
Qed.

Lemma query_template (TK : ty) :
  conditional W A TK TString TString TString = TString.
Proof.
  destruct (conditional_same TK TString TString) as [E | E]; [exact E |].
  destruct TK; try discriminate. reflexivity.
Qed.

(** X18: [QueryParams] makes every property of a record an optional
    [string], whatever its type was ([any] included): both branches of its
    conditional are [string].  Names, order and [readonly] are kept. *)
Theorem QueryParams_record (fs : list prop) :
  QueryParams W A (TRecord fs)
  = TRecord (map (fun f : prop =>
                    (fst f, (TUnion [TString; TUndefined], true, fro (snd f)))) fs).
Proof.
  unfold QueryParams, homomorphic, distribute, homomorphic_one, mapped_props.
  f_equal. apply map_ext. intros [k [[t o] r]].
  unfold mapped_field. cbn [fst snd fty fopt fro apply_mod].
  now rewrite query_template.
Qed.

End PathValue.

(** ** Deep omission *)

Section DeepOmitFacts.

Variable W : wrapper -> list prop.
Variable A : bool -> ty -> list prop.

Lemma DeepOmit_from_char (T : ty) (acc : string) (c : ascii) (k : string) :
  Ascii.eqb c "." = false ->
  DeepOmit_from W A T acc (String c k) = DeepOmit_from W A T (acc ++ String c "") k.
Proof.
  destruct c as [[|] [|] [|] [|] [|] [|] [|] [|]];
    try reflexivity; discriminate.
Qed.

Lemma DeepOmit_from_segment (T : ty) (acc s rest : string) :
  dot_free s = true ->
  DeepOmit_from W A T acc (s ++ String "." rest)
  = conditional W A (TStr (acc ++ s)) (keyof W A T)
      (intersect2
         (mapped_keys (Exclude W A (keyof W A T) (TStr (acc ++ s)))
            (fun P => index_access W A T (TStr P)))
         (mapped_keys (TStr (acc ++ s))
            (fun _ => DeepOmit_from W A (index_access W A T (TStr (acc ++ s))) "" rest)))
      T.
Proof.
  revert acc. induction s as [| c s IH]; intros acc H.
  - rewrite append_empty_r. reflexivity.
  - simpl in H. apply andb_true_iff in H as [Hc Hs].
    apply negb_true_iff in Hc.
    change (String c s ++ String "." rest) with (String c (s ++ String "." rest)).
    rewrite (DeepOmit_from_char T acc c _ Hc), (IH _ Hs), append_char.
    reflexivity.
Qed.

Lemma DeepOmit_from_last (T : ty) (acc s : string) :
  dot_free s = true ->
  DeepOmit_from W A T acc s
  = Omit W A T (intersect2 (TStr (acc ++ s)) (keyof W A T)).
Proof.
  revert acc. induction s as [| c s IH]; intros acc H.
  - rewrite append_empty_r. reflexivity.
  - simpl in H. apply andb_true_iff in H as [Hc Hs].
    apply negb_true_iff in Hc.
    rewrite (DeepOmit_from_char T acc c _ Hc), (IH _ Hs), append_char.
    reflexivity.
Qed.

Lemma intersect_literals (k a : string) :
  intersect2 (TStr k) (TStr a) = if String.eqb a k then TStr k else TNever.
Proof.
  change (intersect2 (TStr k) (TStr a)) with (intersect_atoms (TStr k) (TStr a)).
  unfold intersect_atoms, dedup.
  cbn [TStr is_never is_any orb inter_members app dedup_from mem_ty existsb
         ty_eqb lit_eqb].
  destruct (String.eqb a k) eqn:E; [reflexivity |].
  cbn [orb any_disjoint existsb].
  change (disjoint_pair (TStr k) (TStr a)) with (negb (String.eqb k a)).
  now rewrite String.eqb_sym, E.
Qed.

(** ["k" & keyof R] is ["k"] when [k] names a field of [R], else [never]. *)
Lemma literal_and_names (k : string) (l : list string) :
  intersect2 (TStr k) (pack_union (map TStr l))
  = if has_name k l then TStr k else TNever.
Proof.
  assert (E : intersect2 (TStr k) (pack_union (map TStr l))
              = distribute (intersect2 (TStr k)) (pack_union (map TStr l))).
  { destruct l as [| a [| b l]]; reflexivity. }
  rewrite E, (distribute_some (fun b => String.eqb b k) k).
  - now rewrite has_name_flip.
  - intros b. apply intersect_literals.
Qed.

Lemma Omit_nothing (fs : list prop) :
  NoDup (prop_names fs) -> Omit W A (TRecord fs) TNever = TRecord fs.
Proof.
  intros Hn. unfold Omit, Exclude. rewrite (keyof_record_nodup W A fs Hn).
  rewrite (distribute_select (fun _ => true)); [| exact Hn | reflexivity].
  rewrite (Pick_filtered W A fs (fun _ => true) Hn). f_equal.
  clear Hn. induction fs as [| f l IH]; cbn; [reflexivity | now rewrite IH].
Qed.

Lemma filter_absent (k : string) (fs : list prop) :
  has_name k (prop_names fs) = false ->
  filter (fun p : prop => negb (String.eqb (fst p) k)) fs = fs.
Proof.
  intros H. pose proof (absent_name_differs k fs H) as Hd.
  induction fs as [| f l IH]; [reflexivity |].
  cbn [filter]. rewrite String.eqb_sym, (Hd f (or_introl eq_refl)). cbn [negb].
  f_equal. apply IH.
  - unfold has_name, prop_names in H |- *. cbn [map existsb] in H.
    now apply orb_false_iff in H as [_ H].
  - intros p Hp. apply Hd. now right.
Qed.

(** X19: with a path of one segment [DeepOmit] is the flat [Omit]: the
    field named is removed and every other field keeps its triple; when no
    field has that name the record is returned as it is. *)
Theorem DeepOmit_single_segment (fs : list prop) (k : string) :
  NoDup (prop_names fs) -> dot_free k = true ->
  DeepOmit W A (TRecord fs) k
  = TRecord (filter (fun p : prop => negb (String.eqb (fst p) k)) fs)
  /\ (has_name k (prop_names fs) = false -> DeepOmit W A (TRecord fs) k = TRecord fs).
Proof.
  intros Hn Hk.
  assert (E : DeepOmit W A (TRecord fs) k
              = TRecord (filter (fun p : prop => negb (String.eqb (fst p) k)) fs)).
  { unfold DeepOmit. rewrite (DeepOmit_from_last (TRecord fs) "" k Hk).
    change ("" ++ k) with k.
    rewrite (keyof_record_nodup W A fs Hn), literal_and_names.
    fold (prop_names fs).
    destruct (has_name k (prop_names fs)) eqn:H.
    - now apply Omit_record.
    - rewrite (Omit_nothing fs Hn). f_equal. symmetry. now apply filter_absent. }
  split; [exact E |].
  intros H. rewrite E. f_equal. now apply filter_absent.
Qed.

(** X20: with a longer path whose first segment names a field, the result
    is an intersection of two records: one holds the sibling fields, each
    with the type read from it but always required and writable (their
    [optional] and [readonly] flags are not kept, unlike in the one-segment
    case), the other holds the first segment with [DeepOmit] applied to its
    type for the rest of the path.  With a first segment that names no
    field the type is returned unchanged. *)
Theorem DeepOmit_nested (fs : list prop) (first rest : string) :
  NoDup (prop_names fs) -> dot_free first = true ->
  DeepOmit W A (TRecord fs) (first ++ String "." rest)
  = if has_name first (prop_names fs)
    then TInter
           [TRecord (map (fun s => (s, (index_access W A (TRecord fs) (TStr s),
                                        false, false)))
                       (filter (fun a => negb (String.eqb a first)) (prop_names fs)));
            TRecord [(first,
                      (DeepOmit W A (index_access W A (TRecord fs) (TStr first)) rest,
                       false, false))]]
    else TRecord fs.
Proof.
  intros Hn Hf. unfold DeepOmit.
  rewrite (DeepOmit_from_segment (TRecord fs) "" first rest Hf).
  change ("" ++ first) with first.
  rewrite conditional_keyof_record.
  destruct (has_name first (prop_names fs)) eqn:H; [| reflexivity].
  rewrite (keyof_record_nodup W A fs Hn), (Exclude_name W A _ first Hn).
  unfold mapped_keys at 1. rewrite string_keys_names.
  change (mapped_keys (TStr first)
            (fun _ => DeepOmit_from W A (index_access W A (TRecord fs) (TStr first)) "" rest))
    with (TRecord [(first,
                    (DeepOmit_from W A (index_access W A (TRecord fs) (TStr first)) "" rest,
                     false, false))]).
  assert (Hd : forall p,
             In p (map (fun s => (s, (index_access W A (TRecord fs) (TStr s), false, false)))
                     (filter (fun a => negb (String.eqb a first)) (prop_names fs))) ->
             String.eqb first (fst p) = false).
  { intros p Hp. apply in_map_iff in Hp as (s & <- & Hs).
    apply filter_In in Hs as [_ Hs]. apply negb_true_iff in Hs.
    cbn [fst]. now rewrite String.eqb_sym. }
  apply intersect2_records.
  - now apply single_differs.
  - now apply single_no_conflict.
Qed.

End DeepOmitFacts.

(** [DeepOmit] at a record with a readonly sibling. *)
Lemma DeepOmit_single_segment_witness :
  DeepOmit es_wrapper_members es_array_members readonly_example "age"
  = TRecord [("firstName", (TString, false, true))].
Proof.
  apply (DeepOmit_single_segment es_wrapper_members es_array_members
           [("firstName", (TString, false, true)); ("age", (TNumber, false, false))]
           "age").
  - repeat constructor; simpl; intuition discriminate.
  - reflexivity.
Defined.

Lemma DeepOmit_nested_witness :
  DeepOmit es_wrapper_members es_array_members
    (TRecord [("id", (TString, false, true));
              ("address", (TRecord [("city", (TString, false, false));
                                    ("zip", (TString, false, false))], false, false))])
    "address.zip"
  = TInter [TRecord [("id", (TString, false, false))];
            TRecord [("address", (TRecord [("city", (TString, false, false))],
                                  false, false))]].
Proof.
  apply (DeepOmit_nested es_wrapper_members es_array_members
           [("id", (TString, false, true));
            ("address", (TRecord [("city", (TString, false, false));
                                  ("zip", (TString, false, false))], false, false))]
           "address" "zip").
  - repeat constructor; simpl; intuition discriminate.
  - reflexivity.
Defined.

(** ** Round trips of the deep flag flips *)

Section DeepRoundTrips.

Variable W : wrapper -> list prop.
Variable A : bool -> ty -> list prop.












End DeepRoundTrips.


(** [IsNever] at [never] itself. *)
Lemma IsNever_exact_witness :
  IsNever es_wrapper_members es_array_members TNever = TTrue.
Proof.
  apply (IsNever_exact es_wrapper_members es_array_members TNever).
  reflexivity.
Defined.

(** [IsAny] at [{ name: string; address: { city: string } }]. *)
Lemma IsAny_exact_witness :
  IsAny es_wrapper_members es_array_members user_example = TFalse.
Proof.
  apply (IsAny_exact es_wrapper_members es_array_members user_example);
    reflexivity.
Defined.

(** ** Flattening *)

Section Flatten.

Variable W : wrapper -> list prop.
Variable A : bool -> ty -> list prop.












Lemma lit_eqb_refl (l : lit) : lit_eqb l l = true.
Proof.
  destruct l as [s | z | b]; cbn [lit_eqb].
  - apply String.eqb_refl.
  - apply Z.eqb_refl.
  - destruct b; reflexivity.
Qed.




















End Flatten.


(** The documented example and a record with two different leaf types: the
    results are [string] and [number | string], not records. *)
Lemma FlattenObject_examples :
  FlattenObject es_wrapper_members es_array_members user_example = TString
  /\ FlattenObject es_wrapper_members es_array_members
       (TRecord [("id", (TNumber, false, false));
                 ("address", (TRecord [("city", (TString, false, false))], false, false))])
     = TUnion [TNumber; TString].
Proof. split; vm_compute; reflexivity. Qed.

(** ** Uncurrying *)

Lemma Uncurry_link_fn (X : ty) (Args : list ty) (RReturn : ty) :
  Uncurry (TFn [X] (TFn Args RReturn)) = TFn (X :: Args) RReturn.
Proof. reflexivity. Qed.

Lemma thunk_differs (r : ty) : TFn [] r <> r.
Proof.
  intros E. apply (f_equal ty_depth) in E. cbn [ty_depth map list_max] in E.
  simpl in E. lia.
Qed.

(** X23: [Uncurry] merges the first two links of a chain only.  On
    function types whose parameters are all required (the descriptors have
    no optional or rest parameter): after [Curry] it gives back a function
    of one parameter, because the closing parameterless link is merged into
    it; a function of two or more parameters does not come back: the
    result takes the first two parameters and returns the rest of the
    chain. *)
Theorem Uncurry_Curry (a b : ty) (l : list ty) (r : ty) :
  Uncurry (Curry (TFn [a] r)) = TFn [a] r
  /\ Uncurry (Curry (TFn (a :: b :: l) r)) = TFn [a; b] (Curry (TFn l r))
  /\ Uncurry (Curry (TFn (a :: b :: l) r)) <> TFn (a :: b :: l) r.
Proof.
  rewrite !Curry_chain. cbn [fold_right].
  rewrite !Uncurry_link_fn. repeat split.
  intros E. injection E as El Er. subst l.
  cbn [fold_right] in Er. now apply thunk_differs in Er.
Qed.

(** ** Branded types and their bases *)

Section BrandBase.

Variable W : wrapper -> list prop.
Variable A : bool -> ty -> list prop.
Hypothesis wrapper_no_brand : forall w, find_prop "__brand" (W w) = None.
Hypothesis array_no_brand : forall ro e, find_prop "__brand" (A ro e) = None.

Lemma leaf_related (n : nat) (T : ty) :
  primitive T = true -> brandable_atom T = true -> related W A (S n) T T = true.
Proof.
  intros Hl Hb. destruct T; try discriminate Hb; cbn in Hl; try discriminate Hl.
  - destruct p; try discriminate Hb; reflexivity.
  - cbn [related]. unfold related_step.
    cbn [is_top is_any is_unknown orb related_structure].
    apply lit_eqb_refl.
Qed.

(** An unbranded value is not accepted where a brand is asked for. *)
Lemma not_branded (n : nat) (s m : ty) (a : string) :
  brandable_atom s = true -> related W A n s (TInter [m; brand_tag a]) = false.
Proof.
  intros Hb. destruct n as [| n]; [reflexivity |].
  pose proof (base_not_tagged W A wrapper_no_brand array_no_brand n s a Hb) as E.
  cbn [related]. unfold related_step. cbn [is_top is_any is_unknown orb].
  destruct s; try discriminate Hb;
    cbn [forallb]; rewrite E; now rewrite andb_false_r.
Qed.

Lemma base_not_branded (T : ty) (a : string) :
  brandable_atom T = true -> assignable W A T (Brand T a) = false.
Proof.
  intros Hb. rewrite (Brand_brandable T a Hb). now apply not_branded.
Qed.

Lemma branded_to_base (T : ty) (a : string) :
  primitive T = true -> brandable_atom T = true ->
  assignable W A (Brand T a) T = true.
Proof.
  intros Hl Hb. rewrite (Brand_brandable T a Hb).
  unfold assignable, relation_depth.
  change (related W A 100) with (related_step W A (related W A 99)).
  pose proof (leaf_related 98 T Hl Hb) as E.
  unfold related_step.
  destruct T; try discriminate Hb; try (cbn in Hl; discriminate Hl);
    try (destruct p; try discriminate Hb);
    cbn [is_top is_any is_unknown orb related_structure existsb];
    rewrite E; reflexivity.
Qed.

Lemma brands_unrelated (T : ty) (x y : string) :
  brandable_atom T = true -> x <> y ->
  assignable W A (Brand T x) (Brand T y) = false.
Proof.
  intros Hb Hxy.
  rewrite !Brand_brandable by exact Hb.
  unfold assignable, relation_depth.
  change (related W A 100) with (related_step W A (related W A 99)).
  unfold related_step at 1, brand_tag at 2.
  cbn [is_top is_any is_unknown orb forallb].
  change (TRecord [("__brand", (TStr y, false, true))]) with (brand_tag y).
  rewrite (branded_not_tagged W A wrapper_no_brand array_no_brand _ T x y Hb Hxy).
  now rewrite andb_false_r.
Qed.

(** The shapes of a primitive or literal type. *)
Lemma primitive_cases (T : ty) :
  primitive T = true ->
  (exists p, T = TPrim p) \/ (exists l, T = TLit l) \/ T = TBoolean.
Proof.
  intros H.
  destruct T as [ | | | p | l | fs | ro es | ro e | ps r | ms | ms ];
    cbn in H; try discriminate H.
  - left. now exists p.
  - right. left. now exists l.
  - right. right.
    destruct ms as [| x ms]; [discriminate H |].
    destruct x as [ | | | | [s | z | [|]] | | | | | | ]; cbn in H; try discriminate H.
    destruct ms as [| y ms]; [discriminate H |].
    destruct y as [ | | | | [s | z | [|]] | | | | | | ]; cbn in H; try discriminate H.
    destruct ms as [| z ms]; [reflexivity | discriminate H].
Qed.

Lemma Brand_boolean (a : string) :
  Brand TBoolean a
  = TUnion [TInter [TTrue; brand_tag a]; TInter [TFalse; brand_tag a]].
Proof. reflexivity. Qed.

(** X24: branding goes one way.  For every primitive type, [boolean]
    among them, and every literal type [T], [Brand<T, a>] is assignable to
    [T], and [T] is not assignable to [Brand<T, a>]: a branded value is
    used as a plain one without a cast, a plain one is not accepted where
    the brand is asked for.  (For [null] and [undefined] the brand is
    [never].) *)
Theorem Brand_one_way (T : ty) (a : string) :
  primitive T = true ->
  assignable W A (Brand T a) T = true
  /\ assignable W A T (Brand T a) = false.
Proof.
  intros Hp.
  destruct (primitive_cases T Hp) as [(p & ->) | [(l & ->) | ->]].
  - destruct (is_null_or_undefined (TPrim p)) eqn:En.
    + rewrite (Brand_null (TPrim p) a En).
      destruct p; try discriminate En; split; reflexivity.
    + assert (Hb : brandable_atom (TPrim p) = true)
        by (cbn [brandable_atom]; now rewrite En).
      split; [now apply branded_to_base | now apply base_not_branded].
  - split; [now apply branded_to_base | now apply base_not_branded].
  - rewrite Brand_boolean. split; [reflexivity |].
    unfold assignable, relation_depth.
    change (related W A 100) with (related_step W A (related W A 99)).
    unfold related_step at 1, TBoolean.
    cbn [is_top is_any is_unknown orb forallb].
    change (related W A 99) with (related_step W A (related W A 98)).
    unfold related_step at 1, TTrue.
    cbn [is_top is_any is_unknown orb existsb].
    now rewrite !not_branded.
Qed.

Lemma append_suffix_length (a s : string) :
  String.length (a ++ s) = String.length a + String.length s.
Proof. induction a as [| c a IH]; simpl; [reflexivity | now rewrite IH]. Qed.

Lemma append_suffix_injective (s a b : string) : (a ++ s = b ++ s)%string -> a = b.
Proof.
  revert b. induction a as [| c a IH]; intros [| d b] E.
  - reflexivity.
  - apply (f_equal String.length) in E. simpl in E.
    rewrite append_suffix_length in E. lia.
  - apply (f_equal String.length) in E. simpl in E.
    rewrite append_suffix_length in E. lia.
  - simpl in E. injection E as -> E. f_equal. now apply IH.
Qed.

(** X25: the identifier types [Id<a>] and [Id<b>] of two different entity
    names are not assignable to each other, in either direction; each is
    assignable to [string], and [string] to neither. *)
Theorem Id_distinct (a b : string) :
  a <> b ->
  assignable W A (Id a) (Id b) = false
  /\ assignable W A (Id b) (Id a) = false
  /\ assignable W A (Id a) TString = true
  /\ assignable W A TString (Id a) = false.
Proof.
  intros Hab. unfold Id.
  assert (Hs : (a ++ ":id")%string <> (b ++ ":id")%string)
    by (intros E; now apply Hab, (append_suffix_injective ":id")).
  split; [| split; [| split]].
  - now apply brands_unrelated.
  - apply brands_unrelated; [reflexivity | congruence].
  - now apply branded_to_base.
  - now apply base_not_branded.
Qed.

End BrandBase.

(** A plain [boolean] is no branded [boolean], a branded one is a
    [boolean]; likewise for [string] and [Email]. *)
Lemma Brand_one_way_witness :
  (assignable es_wrapper_members es_array_members (Brand TBoolean "Flag") TBoolean = true
   /\ assignable es_wrapper_members es_array_members TBoolean (Brand TBoolean "Flag") = false)
  /\ (assignable es_wrapper_members es_array_members Email TString = true
      /\ assignable es_wrapper_members es_array_members TString Email = false).
Proof.
  split.
  - apply (Brand_one_way es_wrapper_members es_array_members).
    + intros w. destruct w; reflexivity.
    + reflexivity.
    + reflexivity.
  - apply (Brand_one_way es_wrapper_members es_array_members).
    + intros w. destruct w; reflexivity.
    + reflexivity.
    + reflexivity.
Defined.

(** [Id<"user">] and [Id<"post">], the types of the documentation. *)
Lemma Id_distinct_witness :
  assignable es_wrapper_members es_array_members (Id "user") (Id "post") = false
  /\ assignable es_wrapper_members es_array_members (Id "post") (Id "user") = false
  /\ assignable es_wrapper_members es_array_members (Id "user") TString = true
  /\ assignable es_wrapper_members es_array_members TString (Id "user") = false.
Proof.
  apply (Id_distinct es_wrapper_members es_array_members).
  - intros w. destruct w; reflexivity.
  - reflexivity.
  - discriminate.
Defined.

(** ** Route parameters *)

Section Routes.

Variable W : wrapper -> list prop.
Variable A : bool -> ty -> list prop.

(** A character other than [:] before the first [:] does not matter. *)
Lemma RouteParams_skip_char (d : nat) (c : ascii) (X : string) :
  Ascii.eqb c ":" = false ->
  RouteParams_at W A (S d) (String c X) = RouteParams_at W A (S d) X.
Proof.
  intros Hc. cbn [RouteParams_at split_at]. rewrite Hc.
  destruct (split_at ":" X) as [[x y] |]; reflexivity.
Qed.

Lemma RouteParams_skip_text (d : nat) (t X : string) :
  segment_text t = true ->
  RouteParams_at W A (S d) (t ++ X) = RouteParams_at W A (S d) X.
Proof.
  induction t as [| c t IH]; intros Ht; [reflexivity |].
  cbn [segment_text] in Ht.
  apply andb_true_iff in Ht as [Hc Ht]. apply andb_true_iff in Hc as [Hc _].
  apply negb_true_iff in Hc.
  change ((String c t ++ X)%string) with (String c (t ++ X)).
  rewrite RouteParams_skip_char by exact Hc. now apply IH.
Qed.

Lemma split_slash_text (n X : string) :
  segment_text n = true ->
  split_at "/" (n ++ X)
  = match split_at "/" X with
    | Some (x, y) => Some ((n ++ x)%string, y)
    | None => None
    end.
Proof.
  induction n as [| c n IH]; intros Hn.
  - cbn [append]. destruct (split_at "/" X) as [[x y] |]; reflexivity.
  - cbn [segment_text] in Hn.
    apply andb_true_iff in Hn as [Hc Hn]. apply andb_true_iff in Hc as [_ Hc].
    apply negb_true_iff in Hc.
    change ((String c n ++ X)%string) with (String c (n ++ X)).
    cbn [split_at]. rewrite Hc, (IH Hn).
    destruct (split_at "/" X) as [[x y] |]; reflexivity.
Qed.

Lemma route_starts_with_slash (g : segment) (r : list segment) :
  exists Y, route (g :: r) = String "/" Y.
Proof. destruct g; cbn [route]; eexists; reflexivity. Qed.

(** Names already dropped once are dropped again. *)
Lemma dedup_names_twice (l : list string) :
  forall seen seen',
    (forall x, has_name x seen' = true -> has_name x seen = true) ->
    dedup_names seen (dedup_names seen' l) = dedup_names seen l.
Proof.
  induction l as [| k l IH]; intros seen seen' Hsub; [reflexivity |].
  cbn [dedup_names].
  assert (Hcons : forall x, has_name x (k :: seen') = true ->
                            has_name x (k :: seen) = true).
  { intros x. unfold has_name. cbn [existsb].
    intros Hx. apply orb_true_iff in Hx as [Hx | Hx].
    - now rewrite Hx.
    - apply Hsub in Hx. unfold has_name in Hx. rewrite Hx. apply orb_true_r. }
  destruct (existsb (String.eqb k) seen') eqn:E'.
  - pose proof (Hsub k E') as E. unfold has_name in E. rewrite E.
    now apply IH.
  - cbn [dedup_names].
    destruct (existsb (String.eqb k) seen) eqn:E.
    + apply IH. intros x Hx. unfold has_name in Hx |- *. cbn [existsb] in Hx.
      apply orb_true_iff in Hx as [Hx | Hx].
      * apply String.eqb_eq in Hx. now subst x.
      * now apply Hsub.
    + f_equal. now apply IH.
Qed.

Lemma names_of_string_fields (l : list string) :
  prop_names (map (fun n : string => (n, (TString, false, false))) l) = l.
Proof. unfold prop_names. rewrite map_map. apply map_id. Qed.

Lemma route_length_static (t : string) (r : list segment) :
  String.length (route r) <= String.length (route (Static t :: r)).
Proof. cbn [route String.length]. rewrite append_suffix_length. lia. Qed.

Lemma route_length_param (n : string) (r : list segment) :
  String.length (route r) < String.length (route (Param n :: r)).
Proof. cbn [route String.length]. rewrite append_suffix_length. lia. Qed.

Lemma RouteParams_at_route (segs : list segment) :
  forallb well_formed segs = true ->
  forall d, String.length (route segs) < d ->
  RouteParams_at W A d (route segs)
  = TRecord (map (fun n : string => (n, (TString, false, false)))
                 (dedup_names [] (route_params segs))).
Proof.
  induction segs as [| g r IH]; intros Hw d Hd;
    (destruct d as [| d]; [lia |]).
  - reflexivity.
  - cbn [forallb] in Hw. apply andb_true_iff in Hw as [Hg Hr].
    destruct g as [t | n].
    + cbn [route route_params].
      rewrite RouteParams_skip_char by reflexivity.
      rewrite RouteParams_skip_text by exact Hg.
      apply (IH Hr). pose proof (route_length_static t r). lia.
    + cbn [route route_params].
      rewrite RouteParams_skip_char by reflexivity.
      cbn [RouteParams_at split_at]. change (Ascii.eqb ":" ":") with true. cbv iota.
      rewrite (split_slash_text n (route r) Hg).
      destruct r as [| g' r'].
      * cbn [route split_at]. rewrite append_empty_r.
        unfold mapped_keys.
        change (TStr n) with (pack_union (map TStr [n])).
        rewrite string_keys_names. reflexivity.
      * destruct (route_starts_with_slash g' r') as (Y & EY).
        rewrite EY. cbn [split_at]. change (Ascii.eqb "/" "/") with true. cbv iota.
        rewrite append_empty_r, <- EY.
        pose proof (route_length_param n (g' :: r')) as Hlen.
        rewrite (IH Hr d) by lia.
        rewrite keyof_record, names_of_string_fields.
        set (L := dedup_names [] (dedup_names [] (route_params (g' :: r')))).
        rewrite (union_of_flat _ (map TStr (n :: L))).
        2:{ rewrite flat_names.
            change (flat_map union_members [TStr n; pack_union (map TStr L)])
              with (TStr n :: flat_map union_members [pack_union (map TStr L)]).
            now rewrite members_of_names. }
        rewrite union_of_names. unfold mapped_keys.
        rewrite string_keys_names. do 2 f_equal.
        cbn [dedup_names existsb]. f_equal. unfold L.
        rewrite !dedup_names_twice; [reflexivity | discriminate | discriminate].
Qed.

Lemma has_name_in (k : string) (l : list string) :
  has_name k l = true <-> In k l.
Proof.
  unfold has_name. rewrite existsb_exists. split.
  - intros (x & Hx & E). apply String.eqb_eq in E. now subst x.
  - intros Hk. exists k. split; [exact Hk | apply String.eqb_refl].
Qed.

Lemma dedup_names_no_dup (l : list string) :
  forall seen, NoDup (dedup_names seen l).
Proof.
  induction l as [| a l IH]; intros seen; [constructor |].
  cbn [dedup_names]. destruct (existsb (String.eqb a) seen); [apply IH |].
  constructor; [| apply IH].
  intros Hin. apply has_name_in in Hin.
  rewrite has_name_dedup in Hin. unfold has_name in Hin. cbn [existsb] in Hin.
  rewrite String.eqb_refl in Hin. cbn in Hin.
  now rewrite andb_false_r in Hin.
Qed.

Lemma in_dedup_names_iff (k : string) (l : list string) :
  In k (dedup_names [] l) <-> In k l.
Proof.
  rewrite <- !has_name_in, has_name_dedup. cbn. now rewrite andb_true_r.
Qed.

(** X26: [RouteParams] reads a route made of [/]-led segments, each static
    text or [:name] (texts and names without [:] and [/]), as a record
    with exactly one property per distinct parameter name, each a required,
    writable [string]; static segments leave no trace, and a route without
    parameters gives the empty record.  Nothing is said of the order of the
    properties. *)
Theorem RouteParams_route (segs : list segment) :
  forallb well_formed segs = true ->
  exists fs,
    RouteParams W A (route segs) = TRecord fs
    /\ NoDup (prop_names fs)
    /\ forall k f, In (k, f) fs
                   <-> In k (route_params segs) /\ f = (TString, false, false).
Proof.
  intros Hw.
  exists (map (fun n : string => (n, (TString, false, false)))
              (dedup_names [] (route_params segs))).
  split; [apply RouteParams_at_route; [exact Hw | lia] |].
  split.
  - rewrite names_of_string_fields. apply dedup_names_no_dup.
  - intros k f. rewrite in_map_iff. split.
    + intros (n & [= <- <-] & Hn). split; [now apply in_dedup_names_iff | reflexivity].
    + intros [Hk ->]. exists k. split; [reflexivity | now apply in_dedup_names_iff].
Qed.

End Routes.

(** The route of the documentation, [/users/:id/posts/:postId]. *)
Lemma RouteParams_route_witness :
  exists fs,
    RouteParams es_wrapper_members es_array_members "/users/:id/posts/:postId"
    = TRecord fs
    /\ NoDup (prop_names fs)
    /\ forall k f, In (k, f) fs
                   <-> In k ["id"; "postId"] /\ f = (TString, false, false).
Proof.
  apply (RouteParams_route es_wrapper_members es_array_members
           [Static "users"; Param "id"; Static "posts"; Param "postId"]).
  reflexivity.
Defined.

(** ** Filtering unions of string literals *)

Section UnionFilters.

Variable W : wrapper -> list prop.
Variable A : bool -> ty -> list prop.

Lemma literal_union_not_top (l : list string) : is_top (literal_union l) = false.
Proof. destruct l as [| a [| b l]]; reflexivity. Qed.

(** A string literal extends a union of string literals when it is one of
    them. *)
Lemma conditional_name_names (a : string) (l : list string) (x y : ty) :
  conditional W A (TStr a) (literal_union l) x y = if has_name a l then x else y.
Proof.
  unfold conditional. rewrite literal_union_not_top.
  change (is_any (TStr a)) with false. cbv iota.
  unfold assignable, relation_depth, literal_union.
  now rewrite (related_name_names W A 98).
Qed.

(** X27: on unions of string literals [UnionFilter<U, C>] keeps the
    members of [U] that are members of [C] and [UnionReject<U, C>] keeps
    the others, both in the order of [U]; [UnionHas<U, "v">] tells whether
    ["v"] is a member of [U]. *)
Theorem UnionFilter_Reject_literals (lu lc : list string) (v : string) :
  NoDup lu ->
  UnionFilter W A (literal_union lu) (literal_union lc)
  = literal_union (filter (fun a => has_name a lc) lu)
  /\ UnionReject W A (literal_union lu) (literal_union lc)
     = literal_union (filter (fun a => negb (has_name a lc)) lu)
  /\ UnionHas W A (literal_union lu) (TStr v)
     = if has_name v lu then TTrue else TFalse.
Proof.
  intros Hn. split; [| split].
  - unfold UnionFilter, Extract.
    apply (distribute_select (fun a => has_name a lc) _ lu Hn).
    intros a. apply conditional_name_names.
  - unfold UnionReject, Exclude.
    apply (distribute_select (fun a => negb (has_name a lc)) _ lu Hn).
    intros a. rewrite conditional_name_names. now destruct (has_name a lc).
  - unfold UnionHas. apply conditional_name_names.
Qed.

Lemma filter_all {X : Type} (P : X -> bool) (l : list X) :
  (forall x, P x = true) -> filter P l = l.
Proof.
  intros HP. induction l as [| a l IH]; cbn [filter]; [reflexivity |].
  now rewrite HP, IH.
Qed.

(** Against two different names every name differs from one of them. *)
Lemma UnionDiff_keeps_all (la lb : list string) (b1 b2 : string) :
  NoDup la -> In b1 lb -> In b2 lb -> b1 <> b2 ->
  UnionDiff W A (literal_union la) (literal_union lb) = literal_union la.
Proof.
  intros Hn H1 H2 Hd. rewrite (UnionDiff_formula W A la lb Hn). f_equal.
  apply filter_all. intros a. apply existsb_exists.
  destruct (String.eqb b1 a) eqn:E1.
  - exists b2. split; [exact H2 |].
    apply String.eqb_eq in E1. subst a.
    apply negb_true_iff, String.eqb_neq. congruence.
  - exists b1. split; [exact H1 | now rewrite E1].
Qed.

(** X28: when each of two unions of string literals has two different
    members, [UnionExclusive<A, B>] is their union, common members
    included: nothing is removed on either side. *)
Theorem UnionExclusive_literals (la lb : list string) (a1 a2 b1 b2 : string) :
  NoDup la -> NoDup lb ->
  In a1 la -> In a2 la -> a1 <> a2 ->
  In b1 lb -> In b2 lb -> b1 <> b2 ->
  UnionExclusive W A (literal_union la) (literal_union lb)
  = literal_union (dedup_names [] (la ++ lb)).
Proof.
  intros Hna Hnb Ha1 Ha2 Ha Hb1 Hb2 Hb. unfold UnionExclusive.
  rewrite (UnionDiff_keeps_all la lb b1 b2 Hna Hb1 Hb2 Hb).
  rewrite (UnionDiff_keeps_all lb la a1 a2 Hnb Ha1 Ha2 Ha).
  unfold literal_union.
  rewrite (union_of_flat _ (map TStr (la ++ lb))).
  - apply union_of_names.
  - rewrite flat_names, map_app.
    change (flat_map union_members [pack_union (map TStr la); pack_union (map TStr lb)])
      with ((union_members (pack_union (map TStr la))
             ++ flat_map union_members [pack_union (map TStr lb)])%list).
    rewrite (members_of_names lb). f_equal.
    pose proof (members_of_names la) as E. cbn [flat_map] in E.
    now rewrite app_nil_r in E.
Qed.


End UnionFilters.

(** The unions of the documentation: [UnionFilter] and [UnionReject] split
    ["a" | "b" | "c"] by ["b" | "c" | "d"]. *)
Lemma UnionFilter_Reject_literals_witness :
  UnionFilter es_wrapper_members es_array_members
    (literal_union ["a"; "b"; "c"]) (literal_union ["b"; "c"; "d"])
  = literal_union ["b"; "c"]
  /\ UnionReject es_wrapper_members es_array_members
       (literal_union ["a"; "b"; "c"]) (literal_union ["b"; "c"; "d"])
     = literal_union ["a"]
  /\ UnionHas es_wrapper_members es_array_members
       (literal_union ["a"; "b"; "c"]) (TStr "b")
     = TTrue.
Proof.
  apply (UnionFilter_Reject_literals es_wrapper_members es_array_members
           ["a"; "b"; "c"] ["b"; "c"; "d"] "b").
  repeat constructor; simpl; intuition discriminate.
Defined.

(** [UnionExclusive<"a" | "b" | "c", "b" | "c" | "d">] has all four
    members. *)
Lemma UnionExclusive_literals_witness :
  UnionExclusive es_wrapper_members es_array_members
    (literal_union ["a"; "b"; "c"]) (literal_union ["b"; "c"; "d"])
  = literal_union ["a"; "b"; "c"; "d"].
Proof.
  apply (UnionExclusive_literals es_wrapper_members es_array_members
           ["a"; "b"; "c"] ["b"; "c"; "d"] "a" "b" "b" "c").
  - repeat constructor; simpl; intuition discriminate.
  - repeat constructor; simpl; intuition discriminate.
  - now left.
  - right. now left.
  - discriminate.
  - now left.
  - right. now left.
  - discriminate.
Defined.

